(** * goid: fast goroutine ids by introspection of the runtime's "g"

    A shallow embedding of [goid.go] (package [goid]) and the properties of
    its offset discovery, validation and consensus machinery.

    The Go runtime is an external collaborator.  It is represented by a
    [World]: for every goroutine the text that [runtime.Stack] produces and
    the address that [getg] returns, plus the outcome of a 64-bit load at
    every address.  The package itself is embedded function by function, in
    a small state-and-outcome monad that carries the package variables, the
    panic-on-fault mode of the running goroutine, a log of the loads made
    through [gidFromG] and the number of goroutines started so far.

    How the runtime is modelled:
    - [int], [int64] and [uintptr] are 64 bits wide (the assembly of the
      package is for arm64); arithmetic on them wraps around.
    - A load either gives 64 bits or faults.  A fault attributed to a nil
      dereference is a run-time panic.  A fault at any other address
      crashes the program, unless [debug.SetPanicOnFault(true)] is in
      force, in which case it is a run-time panic too.  That setting
      belongs to one goroutine ("SetPanicOnFault applies only to the
      current goroutine", package [runtime/debug]); a goroutine starts
      with it off.
    - A panic that a deferred [recover] does not stop ends the process.
    - The control blocks do not change while the package reads them, and
      a goroutine's trace always starts with the same bytes.
    - The goroutines of a batch run one after the other, in the order of
      their [go] statements.  They share nothing but the channel on which
      each sends one value, and what is received is combined by operations
      that do not depend on the order of arrival
      ([allReceived_Permutation], [countVotes_Permutation]).
    - The order of a [range] over a map is left open ([MapOrder]).
    - The two loops carry an iteration budget; a loop that uses it up ends
      as [Unfinished].  The budget of [findGidOffset] is enough for every
      window its stride cannot overrun ([findGidOffset_returns]); that of
      a voter is always enough. *)

From Stdlib Require Import ZArith String Ascii List Lia Bool DecimalString.
From stdpp Require Import base gmap list strings sorting.

Local Open Scope string_scope.
Local Open Scope list_scope.
Local Open Scope Z_scope.

(** ** Machine integers *)

Module Int.

(** [int] and [int64] are 64-bit two's complement on the supported
    architecture (arm64); [uintptr] is 64-bit unsigned. *)
Definition minInt : Z := - 2 ^ 63.
Definition maxInt : Z := 2 ^ 63 - 1.

Definition isInt (z : Z) : Prop := minInt <= z <= maxInt.

(** Wrap-around of signed arithmetic ([offset += gidSize], [votes++]). *)
Definition wrapInt (z : Z) : Z := (z + 2 ^ 63) mod 2 ^ 64 - 2 ^ 63.

(** Conversion [uintptr(x)] and wrap-around of pointer arithmetic. *)
Definition uintptr (z : Z) : Z := z mod 2 ^ 64.


End Int.
Export Int.

(** ** Outcomes and the execution monad *)

(** How a piece of Go code can end.  [Panicking] is a run-time panic that is
    unwinding the stack and can still be stopped by a deferred [recover];
    [Crashed] is the runtime killing the process (a fault it does not turn
    into a panic, or a panic that unwound a whole goroutine); [Unfinished]
    is a loop that is still running when its iteration budget is used up. *)
Inductive Result (A : Type) : Type :=
| Normal (a : A)
| Panicking
| Crashed
| Unfinished.
Arguments Normal {A} a.
Arguments Panicking {A}.
Arguments Crashed {A}.
Arguments Unfinished {A}.

(** [type GoID int64] *)
Definition GoID : Type := Z.

(** Goroutines are named by the order in which the process starts them. *)
Definition Tid : Type := nat.
Bind Scope nat_scope with Tid.

(** The package variables ([goroutinePrefix], [gidOffset]) and the part of
    the runtime state the package reads or writes: the panic-on-fault mode
    of the goroutine that is running, the log of addresses loaded through
    [gidFromG] (most recent first) and the name of the next goroutine a
    [go] statement starts. *)
Record State : Type := mkState {
  goroutinePrefix : string;
  gidOffset : Z;
  panicOnFault : bool;
  reads : list Z;
  nextTid : Tid
}.

Definition with_gidOffset (v : Z) (s : State) : State :=
  mkState (goroutinePrefix s) v (panicOnFault s) (reads s) (nextTid s).

Definition with_panicOnFault (b : bool) (s : State) : State :=
  mkState (goroutinePrefix s) (gidOffset s) b (reads s) (nextTid s).

Definition with_read (addr : Z) (s : State) : State :=
  mkState (goroutinePrefix s) (gidOffset s) (panicOnFault s)
          (addr :: reads s) (nextTid s).

Definition with_nextTid (t : Tid) (s : State) : State :=
  mkState (goroutinePrefix s) (gidOffset s) (panicOnFault s) (reads s) t.

Definition Exec (A : Type) : Type := State -> Result A * State.

Definition ret {A} (a : A) : Exec A := fun s => (Normal a, s).

Definition bind {A B} (m : Exec A) (k : A -> Exec B) : Exec B :=
  fun s =>
    match m s with
    | (Normal a, s') => k a s'
    | (Panicking, s') => (Panicking, s')
    | (Crashed, s') => (Crashed, s')
    | (Unfinished, s') => (Unfinished, s')
    end.

Notation "'let*' x ':=' m 'in' k" := (bind m (fun x => k))
  (at level 10, x name, m at level 100, k at level 200, only parsing).

Definition lift {A} (r : Result A) : Exec A := fun s => (r, s).

(** ** Library functions the package calls *)

Module strings.

(** [strings.HasPrefix] *)
Fixpoint HasPrefix (s prefix : string) : bool :=
  match prefix, s with
  | EmptyString, _ => true
  | String _ _, EmptyString => false
  | String c prefix', String d s' => Ascii.eqb c d && HasPrefix s' prefix'
  end.

(** [s[n:]] for [n <= len(s)] *)
Fixpoint drop (n : nat) (s : string) : string :=
  match n, s with
  | O, _ => s
  | S _, EmptyString => EmptyString
  | S n', String _ s' => drop n' s'
  end.

(** [s[:n]] for [n <= len(s)] *)
Fixpoint take (n : nat) (s : string) : string :=
  match n, s with
  | O, _ => EmptyString
  | S _, EmptyString => EmptyString
  | S n', String c s' => String c (take n' s')
  end.

(** [strings.TrimPrefix]: [s] without the leading [prefix]; [s] itself
    when it does not start with [prefix]. *)
Definition TrimPrefix (s prefix : string) : string :=
  if HasPrefix s prefix then drop (String.length prefix) s else s.

(** [strings.IndexByte]: index of the first [c] in [s], or -1. *)
Fixpoint IndexByte (s : string) (c : ascii) : Z :=
  match s with
  | EmptyString => -1
  | String d s' =>
      if Ascii.eqb d c then 0
      else let i := IndexByte s' c in if i <? 0 then -1 else i + 1
  end.

(** [strings.Contains]: [substr] occurs somewhere in [s]. *)
Fixpoint Contains (s substr : string) : bool :=
  HasPrefix s substr ||
  match s with
  | EmptyString => false
  | String _ s' => Contains s' substr
  end.

(** The slice expression [s[:hi]], with its bounds check: out of range
    is a run-time panic. *)
Definition sliceTo (s : string) (hi : Z) : Result string :=
  if (0 <=? hi) && (hi <=? Z.of_nat (String.length s))
  then Normal (take (Z.to_nat hi) s)
  else Panicking.

End strings.

Module strconv.

Definition digit (c : ascii) : option Z :=
  let n := Z.of_nat (nat_of_ascii c) in
  if (48 <=? n) && (n <=? 57) then Some (n - 48) else None.

(** The digit loop of [strconv.ParseUint] in base 10: any other byte is a
    syntax error. *)
Fixpoint digits (acc : Z) (s : string) : option Z :=
  match s with
  | EmptyString => Some acc
  | String c s' =>
      match digit c with
      | Some d => digits (acc * 10 + d) s'
      | None => None
      end
  end.

(** [strconv.ParseUint(s, 10, bitSize)]; [None] stands for [err != nil]
    (empty input, a byte that is no digit, or a value that needs more
    than [bitSize] bits). *)
Definition ParseUint (s : string) (bitSize : Z) : option Z :=
  match s with
  | EmptyString => None
  | _ =>
      match digits 0 s with
      | Some un => if un <? 2 ^ bitSize then Some un else None
      | None => None
      end
  end.

(** [strconv.ParseInt(s, 10, bitSize)]: an optional sign, then
    [ParseUint], then the range check against the signed cutoff. *)
Definition ParseInt (s : string) (bitSize : Z) : option Z :=
  match s with
  | EmptyString => None
  | String c s' =>
      let neg := Ascii.eqb c "-"%char in
      let s1 := if Ascii.eqb c "+"%char || neg then s' else s in
      match ParseUint s1 bitSize with
      | None => None
      | Some un =>
          let cutoff := 2 ^ (bitSize - 1) in
          if negb neg && (cutoff <=? un) then None
          else if neg && (cutoff <? un) then None
          else Some (if neg then - un else un)
      end
  end.

End strconv.

(** ** The runtime as seen by the package *)

(** Outcome of a 64-bit load.  A fault that the runtime attributes to a nil
    pointer dereference is always a run-time panic; a fault at any other
    address is the one [debug.SetPanicOnFault] is about. *)
Inductive Load : Type :=
| Loaded (bits : Z)
| NilFault
| AddrFault.

Record World : Type := mkWorld {
  (** the text [runtime.Stack(buf, false)] formats for a goroutine *)
  stackTrace : Tid -> string;
  (** the address of the goroutine's "g"; 0 is the nil pointer *)
  gAddr : Tid -> Z;
  (** what a load of 8 bytes at an address gives *)
  mem : Z -> Load
}.

Module runtime.

(** [runtime.Stack(buf, false)]: the bytes written into a buffer of
    [size] bytes, the trace cut to the buffer's length. *)
Definition Stack (W : World) (t : Tid) (size : nat) : string :=
  strings.take size (stackTrace W t).

(** The fault handler: the default answer to a fault at a non-nil
    address is to crash the program; with panic-on-fault set for the
    running goroutine it is a panic.  A nil dereference always panics. *)
Definition load (W : World) (addr : Z) : Exec Z :=
  fun s =>
    let s' := with_read addr s in
    match mem W addr with
    | Loaded bits => (Normal (wrapInt bits), s')
    | NilFault => (Panicking, s')
    | AddrFault => if panicOnFault s then (Panicking, s') else (Crashed, s')
    end.

(** [debug.SetPanicOnFault(enabled)]: sets the mode of the calling
    goroutine and returns the previous setting. *)
Definition SetPanicOnFault (enabled : bool) : Exec bool :=
  fun s =>
    (Normal (panicOnFault s), with_panicOnFault enabled s).

(** A deferred call: it runs when the function returns and when a panic
    unwinds through it, and leaves the outcome as it was.  It does not
    run when the process is gone or the body is still looping. *)
Definition defer {A B} (deferred : Exec B) (body : Exec A) : Exec A :=
  fun s =>
    match body s with
    | (Normal a, s') => (Normal a, snd (deferred s'))
    | (Panicking, s') => (Panicking, snd (deferred s'))
    | other => other
    end.

(** [defer func() { if r := recover(); r != nil { result = v } }()] in a
    function with a named result: a panic is stopped and the function
    returns [v]; a normal return keeps its value. *)
Definition deferRecover {A} (v : A) (body : Exec A) : Exec A :=
  fun s =>
    match body s with
    | (Panicking, s') => (Normal v, s')
    | other => other
    end.

(** [go f()] followed, later, by the receive of the one value [f] sends
    on the result channel.  The new goroutine runs with panic-on-fault
    off, the mode every goroutine starts in; the mode of the spawning
    goroutine is its own and is unchanged.  A panic that nothing in the
    goroutine recovers ends the process. *)
Definition go {A} (f : Tid -> Exec A) : Exec A :=
  fun s =>
    let t := nextTid s in
    let s0 := with_panicOnFault false (with_nextTid (S t) s) in
    match f t s0 with
    | (r, s1) =>
        let s2 := with_panicOnFault (panicOnFault s) s1 in
        match r with
        | Normal a => (Normal a, s2)
        | Panicking => (Crashed, s2)
        | Crashed => (Crashed, s2)
        | Unfinished => (Unfinished, s2)
        end
    end.

End runtime.

(** ** Package goid *)

(** [const ( gidSize = (int)(unsafe.Sizeof(GoID(0))); gSize = 256;
    checkCount = 10; voterCount = 10 )] *)
Definition gidSize : Z := 8.
Definition gSize : Z := 256.
Definition checkCount : Z := 10.
Definition voterCount : Z := 10.

(** Reads of the two package variables, and the one assignment to
    [gidOffset]: its initialiser. *)
Definition var_goroutinePrefix : Exec string :=
  fun s => (Normal (goroutinePrefix s), s).

Definition var_gidOffset : Exec Z :=
  fun s => (Normal (gidOffset s), s).

Definition assign_gidOffset (v : Z) : Exec unit :=
  fun s => (Normal tt, with_gidOffset v s).

(** [func getg() *g], implemented in assembly: the "g" of the calling
    goroutine, as an address. *)
Definition getg (W : World) (t : Tid) : Z := uintptr (gAddr W t).

(** The body of [slowGid] once [runtime.Stack] has filled the buffer:
    [blob] is [string(buf[:n])]. *)
Definition slowGid_parse (prefix blob : string) : Result GoID :=
  let str := strings.TrimPrefix blob prefix in
  let lastOffset := strings.IndexByte str " "%char in
  if 0 <? lastOffset then
    match strings.sliceTo str lastOffset with
    | Normal token =>
        match strconv.ParseInt token (gidSize * 8) with
        | Some id => Normal id
        | None => Normal 0
        end
    | Panicking => Panicking
    | Crashed => Crashed
    | Unfinished => Unfinished
    end
  else Normal 0.

(** [func slowGid() GoID], called by goroutine [t]. *)
Definition slowGid (W : World) (t : Tid) : Exec GoID :=
  let* prefix := var_goroutinePrefix in
  lift (slowGid_parse prefix (runtime.Stack W t 32%nat)).

(** [func gidFromG(g *g, offset int) GoID]: the load at
    [uintptr(unsafe.Pointer(g)) + uintptr(offset)]. *)
Definition gidFromG (W : World) (g : Z) (offset : Z) : Exec GoID :=
  runtime.load W (uintptr (g + uintptr offset)).

(** [func fastGid() GoID] *)
Definition fastGid (W : World) (t : Tid) : Exec GoID :=
  let* offset := var_gidOffset in
  gidFromG W (getg W t) offset.

(** [func FastGetGoIDAvailable() bool] *)
Definition FastGetGoIDAvailable : Exec bool :=
  let* offset := var_gidOffset in
  ret (0 <=? offset).

(** [func GetGoID() GoID] *)
Definition GetGoID (W : World) (t : Tid) : Exec GoID :=
  let* available := FastGetGoIDAvailable in
  if available then fastGid W t else slowGid W t.

(** The [for offset = startOffset; offset < maxOffset; offset += gidSize]
    loop of [findGidOffset]. *)
Fixpoint findGidOffset_loop (fuel : nat) (W : World) (g : Z) (currGid : GoID)
    (offset maxOffset : Z) : Exec Z :=
  match fuel with
  | O => lift Unfinished
  | S fuel' =>
      if offset <? maxOffset then
        let* v := gidFromG W g offset in
        if v =? currGid then ret offset
        else findGidOffset_loop fuel' W g currGid
               (wrapInt (offset + gidSize)) maxOffset
      else ret (-1)
  end.

(** [func findGidOffset(startOffset, maxOffset int) (offset int)], called by
    goroutine [t], its loop given [fuel] iterations.  The two deferred
    functions run in the reverse order of their [defer] statements. *)
Definition findGidOffset_fuel (fuel : nat) (W : World) (t : Tid)
    (startOffset maxOffset : Z) : Exec Z :=
  let* currGid := slowGid W t in
  let g := getg W t in
  let* oldPanicOnFault := runtime.SetPanicOnFault true in
  runtime.deferRecover (-1)
    (runtime.defer (runtime.SetPanicOnFault oldPanicOnFault)
       (if negb (currGid =? 0) && negb (g =? 0)
        then findGidOffset_loop fuel W g currGid startOffset maxOffset
        else ret (-1))).

(** As long as the stride does not wrap around, the loop ends within this
    many tests of its condition. *)
Definition windowBudget (startOffset maxOffset : Z) : nat :=
  S (Z.to_nat (maxOffset - startOffset)).

Definition findGidOffset (W : World) (t : Tid) (startOffset maxOffset : Z)
    : Exec Z :=
  findGidOffset_fuel (windowBudget startOffset maxOffset) W t
    startOffset maxOffset.

(** The goroutine [checkGidOffset] starts [checkCount] times; its result is
    the one value it sends on the channel [ret]. *)
Definition checkGidOffset_probe (W : World) (offset : Z) (t : Tid) : Exec bool :=
  let* gid := slowGid W t in
  let g := getg W t in
  runtime.deferRecover false
    (if negb (gid =? 0) && negb (g =? 0)
     then let* v := gidFromG W g offset in ret (v =? gid)
     else ret false).

(** [for i := 0; i < n; i++ { go f() }] together with the [n] receives that
    follow it: the values sent, in the order the goroutines were started.
    Each goroutine sends exactly one value into a channel with room for
    all of them. *)
Fixpoint spawnAll {A} (n : nat) (f : Tid -> Exec A) : Exec (list A) :=
  match n with
  | O => ret []
  | S n' =>
      let* a := runtime.go f in
      let* rest := spawnAll n' f in
      ret (a :: rest)
  end.

(** [result := true; for ... { if !<-ret { result = false } }] *)
Definition allReceived (received : list bool) : bool :=
  fold_left (fun result v => if negb v then false else result) received true.

(** [func checkGidOffset(offset int) bool] *)
Definition checkGidOffset (W : World) (offset : Z) : Exec bool :=
  let* received := spawnAll (Z.to_nat checkCount) (checkGidOffset_probe W offset) in
  ret (allReceived received).

(** The loop of a voter:
    [for offset := 0; offset < gSize; offset += gidSize]. *)
Fixpoint voter_loop (fuel : nat) (W : World) (t : Tid) (offset : Z)
    (localCandidateOffsets : list Z) : Exec (list Z) :=
  match fuel with
  | O => lift Unfinished
  | S fuel' =>
      if offset <? gSize then
        let* offset := findGidOffset W t offset gSize in
        if offset =? -1 then ret localCandidateOffsets
        else
          let* ok := checkGidOffset W offset in
          voter_loop fuel' W t (wrapInt (offset + gidSize))
            (if ok then localCandidateOffsets ++ [offset]
             else localCandidateOffsets)
      else ret localCandidateOffsets
  end.

(** A voter goroutine; it sends its list on the channel.  Every round of
    its loop moves [offset] forward by [gidSize] at least. *)
Definition voter (W : World) (t : Tid) : Exec (list Z) :=
  voter_loop (windowBudget 0 gSize) W t 0 [].

(** [globalCandidateOffsets[offset]++] *)
Definition vote (m : gmap Z Z) (offset : Z) : gmap Z Z :=
  <[offset := wrapInt (default 0 (m !! offset) + 1)]> m.

(** Counting the votes of the lists received from the voters. *)
Definition countVotes (received : list (list Z)) : gmap Z Z :=
  fold_left (fun m offsets => fold_left vote offsets m) received ∅.

(** [for offset, votes := range globalCandidateOffsets] over the entries in
    the order the iteration visits them; -1 when the loop falls through. *)
Fixpoint pickUnanimous (entries : list (Z * Z)) : Z :=
  match entries with
  | [] => -1
  | (offset, votes) :: rest =>
      if votes =? voterCount then offset else pickUnanimous rest
  end.

(** The iteration order of a [range] over a map is not specified: any
    order of the entries can be the one a run sees. *)
Record MapOrder : Type := mkMapOrder {
  rangeOf : gmap Z Z -> list (Z * Z);
  rangeOf_perm : forall m, rangeOf m ≡ₚ map_to_list m
}.

(** [func getGidOffset() int] *)
Definition getGidOffset (order : MapOrder) (W : World) : Exec Z :=
  let* received := spawnAll (Z.to_nat voterCount) (voter W) in
  ret (pickUnanimous (rangeOf order (countVotes received))).

(** Package initialisation:
    [var ( goroutinePrefix = "goroutine "; gidOffset = getGidOffset() )].
    The initialiser of [gidOffset] runs on the main goroutine, number 0,
    with [goroutinePrefix] set, [gidOffset] still at its zero value and no
    other goroutine started. *)
Definition zeroState : State := mkState "goroutine " 0 false [] 1%nat.

Definition packageInit (order : MapOrder) (W : World) : Exec unit :=
  let* offset := getGidOffset order W in
  assign_gidOffset offset.

(** ** Vocabulary of the statements *)

(** What [slowGid] computes from the buffer, as a plain value. *)
Definition slowGid_value (prefix blob : string) : GoID :=
  let str := strings.TrimPrefix blob prefix in
  let lastOffset := strings.IndexByte str " "%char in
  if 0 <? lastOffset then
    match strconv.ParseInt (strings.take (Z.to_nat lastOffset) str) (gidSize * 8) with
    | Some id => id
    | None => 0
    end
  else 0.

(** The slow path of goroutine [t] in state [s]: always a value, and the
    state is left as it was. *)
Definition slowGid_of (W : World) (s : State) (t : Tid) : GoID :=
  slowGid_value (goroutinePrefix s) (runtime.Stack W t 32%nat).

(** [s] after the loads [l] (most recent first) have been logged. *)
Definition logged (l : list Z) (s : State) : State :=
  mkState (goroutinePrefix s) (gidOffset s) (panicOnFault s)
          (l ++ reads s) (nextTid s).

(** The address [gidFromG(g, offset)] loads from. *)
Definition addrOf (g offset : Z) : Z := uintptr (g + uintptr offset).

(** The value stored at [offset] in the control block at [g], interpreted
    as a [GoID]; [None] when the load faults. *)
Definition storedAt (W : World) (g offset : Z) : option GoID :=
  match mem W (addrOf g offset) with
  | Loaded bits => Some (wrapInt bits)
  | _ => None
  end.

Definition loaded (W : World) (a : Z) : Prop := exists bits, mem W a = Loaded bits.

(** A probe goroutine [t] succeeds at [offset]: its slow-path id is not 0,
    its control block reference is not nil, and the value stored at
    [offset] in its own control block is its slow-path id. *)
Definition probeSucceeds (W : World) (s : State) (offset : Z) (t : Tid) : bool :=
  negb (slowGid_of W s t =? 0) && negb (getg W t =? 0) &&
  match storedAt W (getg W t) offset with
  | Some v => v =? slowGid_of W s t
  | None => false
  end.

(** The load of probe goroutine [t] faults at a non-nil address. *)
Definition probeFaults (W : World) (s : State) (offset : Z) (t : Tid) : bool :=
  negb (slowGid_of W s t =? 0) && negb (getg W t =? 0) &&
  match mem W (addrOf (getg W t) offset) with
  | AddrFault => true
  | _ => false
  end.

(** The goroutines a batch of [n] [go] statements starts in state [s]. *)
Definition started (s : State) (n : nat) : list Tid := seq (nextTid s) n.

(** A computation leaves the package variables as they are. *)
Definition keepsVars {A} (m : Exec A) : Prop :=
  forall s,
    gidOffset (snd (m s)) = gidOffset s /\
    goroutinePrefix (snd (m s)) = goroutinePrefix s.

(** The operations of the package, as a program can call them after
    initialisation, and runs of several of them one after the other. *)
Inductive Call : Type :=
| CallGetGoID (t : Tid)
| CallFastGetGoIDAvailable
| CallFastGid (t : Tid)
| CallSlowGid (t : Tid)
| CallGidFromG (g offset : Z)
| CallFindGidOffset (t : Tid) (startOffset maxOffset : Z)
| CallCheckGidOffset (offset : Z)
| CallGetGidOffset (order : MapOrder).

Definition discard {A} (m : Exec A) : Exec unit := let* _ := m in ret tt.

Definition call (W : World) (c : Call) : Exec unit :=
  match c with
  | CallGetGoID t => discard (GetGoID W t)
  | CallFastGetGoIDAvailable => discard FastGetGoIDAvailable
  | CallFastGid t => discard (fastGid W t)
  | CallSlowGid t => discard (slowGid W t)
  | CallGidFromG g offset => discard (gidFromG W g offset)
  | CallFindGidOffset t startOffset maxOffset =>
      discard (findGidOffset W t startOffset maxOffset)
  | CallCheckGidOffset offset => discard (checkGidOffset W offset)
  | CallGetGidOffset order => discard (getGidOffset order W)
  end.

Fixpoint calls (W : World) (cs : list Call) : Exec unit :=
  match cs with
  | [] => ret tt
  | c :: cs' => let* _ := call W c in calls W cs'
  end.

(** What a voter can have on its list when its loop has reached [bound]:
    distinct multiples of 8 below [bound], inside the window. *)
Definition candidateList (bound : Z) (l : list Z) : Prop :=
  NoDup l /\ Forall (fun o => (0 <= o < bound /\ o < gSize) /\ o mod 8 = 0) l.

(** The number of voters whose list holds [offset]. *)
Fixpoint support (lists : list (list Z)) (offset : Z) : nat :=
  match lists with
  | [] => 0
  | l :: rest =>
      ((if bool_decide (offset ∈ l) then 1 else 0) + support rest offset)%nat
  end.

(** Every voter has [offset] on its list. *)
Definition unanimous (lists : list (list Z)) (offset : Z) : Prop :=
  Forall (fun l => offset ∈ l) lists.

(** The entry of the map of votes for an offset that [n] voters listed. *)
Definition tallyOf (n : nat) : option Z :=
  match n with
  | O => None
  | S _ => Some (Z.of_nat n)
  end.

(** The text before the first space of [str], when that space is not the
    first byte: the token [slowGid] hands to [strconv.ParseInt]. *)
Definition firstToken (str : string) : option string :=
  let lastOffset := strings.IndexByte str " "%char in
  if 0 <? lastOffset then Some (strings.take (Z.to_nat lastOffset) str)
  else None.

(** Decimal digits, strings of them, and their value. *)
Definition isDigit (c : ascii) : bool :=
  let n := Z.of_nat (nat_of_ascii c) in (48 <=? n) && (n <=? 57).

Fixpoint allDigits (s : string) : bool :=
  match s with
  | EmptyString => true
  | String c s' => isDigit c && allDigits s'
  end.

Fixpoint decimalValue (acc : Z) (s : string) : Z :=
  match s with
  | EmptyString => acc
  | String c s' => decimalValue (acc * 10 + (Z.of_nat (nat_of_ascii c) - 48)) s'
  end.

(** [token] is a well-formed 64-bit decimal number and [v] is its value:
    an optional sign, then one digit or more and nothing else, and a value
    that fits [int64]. *)
Inductive decimalInt64 (token : string) (v : Z) : Prop :=
| decimal_plain :
    token <> EmptyString -> allDigits token = true ->
    v = decimalValue 0 token -> isInt v -> decimalInt64 token v
| decimal_plus ds :
    token = String "+" ds -> ds <> EmptyString -> allDigits ds = true ->
    v = decimalValue 0 ds -> isInt v -> decimalInt64 token v
| decimal_minus ds :
    token = String "-" ds -> ds <> EmptyString -> allDigits ds = true ->
    v = - decimalValue 0 ds -> isInt v -> decimalInt64 token v.

(** [str] does not begin with a well-formed 64-bit decimal number followed
    by a space. *)
Definition noDecimalToken (str : string) : Prop :=
  match firstToken str with
  | Some token => forall v, ~ decimalInt64 token v
  | None => True
  end.

(** The first [n] offsets a scan from [start] visits. *)
Fixpoint progression (start : Z) (n : nat) : list Z :=
  match n with
  | O => []
  | S n' => start :: progression (start + gidSize) n'
  end.

(** Offset [startOffset + 8 * k] is where a scan of the window by
    goroutine [t] stops with a match: the slow path gave an id, the
    control block reference is not nil, the offset is below [maxOffset] and
    holds the id, and every offset of the scan before it could be loaded
    and holds something else. *)
Definition firstMatchAt (W : World) (s : State) (t : Tid)
    (startOffset maxOffset k : Z) : Prop :=
  slowGid_of W s t <> 0 /\ getg W t <> 0 /\
  startOffset + 8 * k < maxOffset /\
  storedAt W (getg W t) (startOffset + 8 * k) = Some (slowGid_of W s t) /\
  forall j, 0 <= j < k ->
    exists v, storedAt W (getg W t) (startOffset + 8 * j) = Some v /\
              v <> slowGid_of W s t.

(** Goroutine [t] keeps its id at offset [f] of its control block and at no
    other aligned offset of the window: the slow path gives an id, the
    control block reference is not nil, and every aligned offset below
    [gSize] can be loaded and holds the id exactly when it is [f]. *)
Definition idOnlyAt (W : World) (s : State) (f : Z) (t : Tid) : Prop :=
  slowGid_of W s t <> 0 /\ getg W t <> 0 /\
  forall o, 0 <= o < gSize -> o mod 8 = 0 ->
    exists v, storedAt W (getg W t) o = Some v /\
              (v = slowGid_of W s t <-> o = f).

(** The same, as a check that can be run. *)
Definition idOnlyAtb (W : World) (s : State) (f : Z) (t : Tid) : bool :=
  negb (slowGid_of W s t =? 0) && negb (getg W t =? 0) &&
  forallb (fun o => match storedAt W (getg W t) o with
                    | Some v => Bool.eqb (v =? slowGid_of W s t) (o =? f)
                    | None => false
                    end)
          (progression 0 (Z.to_nat (gSize / gidSize))).

(** The window of goroutine [t]'s control block is readable: a load at
    every aligned offset below [gSize] gives a value. *)
Definition readableBlock (W : World) (t : Tid) : Prop :=
  forall o, 0 <= o < gSize -> o mod gidSize = 0 ->
    loaded W (addrOf (getg W t) o).

(** The same, as a check that can be run. *)
Definition readableBlockb (W : World) (t : Tid) : bool :=
  forallb (fun o => match mem W (addrOf (getg W t) o) with
                    | Loaded _ => true
                    | _ => false
                    end)
          (progression 0 (Z.to_nat (gSize / gidSize))).

(** The control block of goroutine [t] follows the layout: with [Some f],
    [f] is an aligned offset of the window and the block keeps the id
    there and at no other aligned offset of the window; with [None], no
    aligned offset of the window holds the id. *)
Definition idLayout (W : World) (s : State) (layout : option Z) (t : Tid)
    : Prop :=
  match layout with
  | Some f => (0 <= f < gSize /\ f mod 8 = 0) /\ idOnlyAt W s f t
  | None =>
      forall o, 0 <= o < gSize -> o mod 8 = 0 ->
        storedAt W (getg W t) o <> Some (slowGid_of W s t)
  end.

(** ** Example runtimes *)

Definition decimal (z : Z) : string :=
  NilZero.string_of_uint (N.to_uint (Z.to_N z)).

Definition gBase : Z := 824633720832.

Definition gArena : Z := 1024 * 65536.

(** A runtime in which goroutine [t] has id [t + 1] and a control block of
    [extent] readable bytes at [gBase + 1024 * t], in an arena of [gArena]
    bytes.  The block is zero but for the fields at the offsets [fields],
    which hold the goroutine's id.  Page zero is the nil page; nothing
    else is mapped. *)
Definition exampleWorld (fields : list Z) (extent : Z) : World :=
  mkWorld
    (fun t => ("goroutine " ++ decimal (Z.of_nat t + 1) ++ " [running]:"
               ++ String "010"%char "main.main()")%string)
    (fun t => gBase + 1024 * Z.of_nat t)
    (fun a =>
       if a <? 4096 then NilFault
       else if (a <? gBase) || (gBase + gArena <=? a) then AddrFault
       else
         let offset := (a - gBase) mod 1024 in
         if extent <? offset + 8 then AddrFault
         else if existsb (Z.eqb offset) fields
              then Loaded ((a - gBase) / 1024 + 1)
              else Loaded 0).

(** Two iteration orders a [range] over the map of votes can take. *)
Definition ascending : MapOrder :=
  mkMapOrder map_to_list (fun m => reflexivity (map_to_list m)).

Definition descending : MapOrder :=
  mkMapOrder (fun m => reverse (map_to_list m))
             (fun m => reverse_Permutation (map_to_list m)).

(** * Properties *)

(** ** Machine integers *)

Lemma wrapInt_id z : isInt z -> wrapInt z = z.
Proof.
  unfold isInt, wrapInt, minInt, maxInt. intros H.
  rewrite Z.mod_small by lia. lia.
Qed.

Lemma wrapInt_isInt z : isInt (wrapInt z).
Proof.
  unfold isInt, wrapInt, minInt, maxInt.
  pose proof (Z.mod_pos_bound (z + 2 ^ 63) (2 ^ 64) ltac:(lia)). lia.
Qed.


(** ** The slow identity extractor *)

Section SlowGid.

Lemma IndexByte_range s c :
  strings.IndexByte s c = -1 \/
  0 <= strings.IndexByte s c < Z.of_nat (String.length s).
Proof.
  induction s as [|d s IH]; simpl; [now left|].
  destruct (Ascii.eqb d c); [right; lia|].
  destruct (Z.ltb_spec (strings.IndexByte s c) 0); [now left|right; lia].
Qed.

Lemma sliceTo_IndexByte s c :
  strings.sliceTo s (strings.IndexByte s c) =
  if 0 <=? strings.IndexByte s c
  then Normal (strings.take (Z.to_nat (strings.IndexByte s c)) s)
  else Panicking.
Proof.
  unfold strings.sliceTo.
  destruct (IndexByte_range s c) as [E|[H1 H2]].
  - rewrite E. reflexivity.
  - destruct (Z.leb_spec 0 (strings.IndexByte s c)); [|lia].
    destruct (Z.leb_spec (strings.IndexByte s c) (Z.of_nat (String.length s)));
      [reflexivity|lia].
Qed.


Lemma slowGid_parse_value prefix blob :
  slowGid_parse prefix blob = Normal (slowGid_value prefix blob).
Proof.
  unfold slowGid_parse, slowGid_value. cbv zeta.
  destruct (Z.ltb_spec 0 (strings.IndexByte (strings.TrimPrefix blob prefix) " "));
    [|reflexivity].
  rewrite sliceTo_IndexByte.
  destruct (Z.leb_spec 0 (strings.IndexByte (strings.TrimPrefix blob prefix) " "));
    [|lia].
  destruct (strconv.ParseInt _ _); reflexivity.
Qed.


Lemma slowGid_run W t s : slowGid W t s = (Normal (slowGid_of W s t), s).
Proof.
  unfold slowGid, bind, var_goroutinePrefix, lift, slowGid_of.
  now rewrite slowGid_parse_value.
Qed.

End SlowGid.

(** ** Decimal numbers *)

Section Decimal.

Lemma digits_allDigits s :
  forall acc,
  strconv.digits acc s =
  if allDigits s then Some (decimalValue acc s) else None.
Proof.
  induction s as [|c s IH]; intros acc; simpl; [reflexivity|].
  unfold strconv.digit, isDigit. cbv zeta.
  destruct ((48 <=? Z.of_nat (nat_of_ascii c)) && (Z.of_nat (nat_of_ascii c) <=? 57));
    [apply IH|reflexivity].
Qed.

Lemma decimalValue_nonneg s :
  forall acc, 0 <= acc -> allDigits s = true -> 0 <= decimalValue acc s.
Proof.
  induction s as [|c s IH]; intros acc Hacc H; simpl in *; [assumption|].
  apply andb_prop in H as [Hc Hs]. apply IH; [|assumption].
  unfold isDigit in Hc. cbv zeta in Hc. apply andb_prop in Hc as [H1 H2].
  apply Z.leb_le in H1, H2. lia.
Qed.

Lemma ParseUint_digits s :
  strconv.ParseUint s 64 =
  match s with
  | EmptyString => None
  | _ => if allDigits s && (decimalValue 0 s <? 2 ^ 64)
         then Some (decimalValue 0 s) else None
  end.
Proof.
  unfold strconv.ParseUint. destruct s as [|c s]; [reflexivity|].
  rewrite digits_allDigits. now destruct (allDigits (String c s)).
Qed.

(** [strconv.ParseInt] on a token with its sign taken off: [neg] tells
    whether the sign was a minus, [body] is what follows the sign. *)
Lemma ParseInt_body (neg : bool) (body : string) (v : Z) :
  match strconv.ParseUint body 64 with
  | None => None
  | Some un =>
      if negb neg && (2 ^ (64 - 1) <=? un) then None
      else if neg && (2 ^ (64 - 1) <? un) then None
      else Some (if neg then - un else un)
  end = Some v <->
  body <> EmptyString /\ allDigits body = true /\
  v = (if neg then - decimalValue 0 body else decimalValue 0 body) /\ isInt v.
Proof.
  rewrite ParseUint_digits. change (2 ^ (64 - 1)) with (2 ^ 63).
  destruct body as [|d ds]; [split; [discriminate|now intros [H _]]|].
  remember (String d ds) as body eqn:Eb.
  assert (Hne : body <> EmptyString) by (subst; discriminate).
  clear Eb d ds.
  destruct (allDigits body) eqn:Hall; cbn [andb].
  2:{ split; [discriminate|]. now intros (_ & H & _). }
  pose proof (decimalValue_nonneg body 0 ltac:(lia) Hall) as Hpos.
  remember (decimalValue 0 body) as un eqn:Eun. clear Eun.
  unfold isInt, minInt, maxInt.
  destruct (Z.ltb_spec un (2 ^ 64)) as [H64|H64].
  - destruct neg; cbn [negb andb].
    + destruct (Z.ltb_spec (2 ^ 63) un); split.
      * discriminate.
      * intros (_ & _ & -> & Hi). lia.
      * intros [= <-]. repeat split; [assumption|lia..].
      * now intros (_ & _ & -> & _).
    + destruct (Z.leb_spec (2 ^ 63) un); split.
      * discriminate.
      * intros (_ & _ & -> & Hi). lia.
      * intros [= <-]. repeat split; [assumption|lia..].
      * now intros (_ & _ & -> & _).
  - split; [discriminate|]. intros (_ & _ & -> & Hi). destruct neg; lia.
Qed.

(** [strconv.ParseInt] succeeds exactly on the well-formed 64-bit decimal
    numbers, with their value. *)
Lemma ParseInt_decimalInt64 token v :
  strconv.ParseInt token 64 = Some v <-> decimalInt64 token v.
Proof.
  unfold strconv.ParseInt. destruct token as [|c s]; cbv zeta.
  { split; [discriminate|]. now intros [H| |]. }
  destruct (Ascii.eqb_spec c "-") as [->|Hminus].
  - (* a minus sign *)
    rewrite orb_true_r, (ParseInt_body true s v). split.
    + intros (H1 & H2 & H3 & H4). now apply (decimal_minus _ _ s).
    + intros [_ Hall _ _|ds Hds _ _ _ _|ds Hds H1 H2 H3 H4].
      * simpl in Hall. discriminate.
      * discriminate.
      * injection Hds as <-. tauto.
  - rewrite orb_false_r.
    destruct (Ascii.eqb_spec c "+") as [->|Hplus].
    + (* a plus sign *)
      rewrite (ParseInt_body false s v). split.
      * intros (H1 & H2 & H3 & H4). now apply (decimal_plus _ _ s).
      * intros [_ Hall _ _|ds Hds H1 H2 H3 H4|ds Hds _ _ _ _].
        -- simpl in Hall. discriminate.
        -- injection Hds as <-. tauto.
        -- discriminate.
    + (* no sign *)
      rewrite (ParseInt_body false (String c s) v). split.
      * intros (H1 & H2 & H3 & H4). now apply decimal_plain.
      * intros [H1 H2 H3 H4|ds Hds _ _ _ _|ds Hds _ _ _ _].
        -- tauto.
        -- injection Hds as -> _. contradiction.
        -- injection Hds as -> _. contradiction.
Qed.

End Decimal.

(** ** State bookkeeping *)

Lemma with_panicOnFault_same s : with_panicOnFault (panicOnFault s) s = s.
Proof. now destruct s. Qed.

Lemma with_panicOnFault_twice b b' s :
  with_panicOnFault b (with_panicOnFault b' s) = with_panicOnFault b s.
Proof. reflexivity. Qed.


Lemma logged_nil s : logged [] s = s.
Proof. now destruct s. Qed.

Lemma logged_read l a s : logged l (with_read a s) = logged (l ++ [a]) s.
Proof. unfold logged, with_read; simpl. now rewrite <- app_assoc. Qed.

Lemma logged_inj l l' s : logged l s = logged l' s -> l = l'.
Proof.
  unfold logged. intros H. injection H as H. now apply app_inv_tail in H.
Qed.

Lemma logged_flag l b s :
  with_panicOnFault b (logged l s) = logged l (with_panicOnFault b s).
Proof. reflexivity. Qed.

(** ** The candidate offset finder *)

Section Finder.

Variable W : World.


Lemma gidFromG_run g offset s :
  gidFromG W g offset s =
  match mem W (addrOf g offset) with
  | Loaded bits => (Normal (wrapInt bits), with_read (addrOf g offset) s)
  | NilFault => (Panicking, with_read (addrOf g offset) s)
  | AddrFault =>
      if panicOnFault s then (Panicking, with_read (addrOf g offset) s)
      else (Crashed, with_read (addrOf g offset) s)
  end.
Proof. reflexivity. Qed.

(** The loop only logs loads; it ends in a panic or a crash exactly at a
    load that faults, and a crash needs panic-on-fault to be off. *)
Lemma findGidOffset_loop_trace g currGid fuel :
  forall offset maxOffset s r s',
  findGidOffset_loop fuel W g currGid offset maxOffset s = (r, s') ->
  exists l,
    s' = logged l s /\
    match r with
    | Normal _ | Unfinished => Forall (loaded W) l
    | Panicking => exists a l', l = a :: l' /\ ~ loaded W a
    | Crashed => panicOnFault s = false /\ exists a l', l = a :: l' /\ ~ loaded W a
    end.
Proof.
  induction fuel as [|fuel IH]; intros offset maxOffset s r s' H; simpl in H.
  - injection H as <- <-. exists []. rewrite logged_nil.
    split; [reflexivity|constructor].
  - destruct (offset <? maxOffset).
    2:{ injection H as <- <-. exists []. rewrite logged_nil.
        split; [reflexivity|constructor]. }
    unfold bind in H. rewrite gidFromG_run in H.
    destruct (mem W (addrOf g offset)) as [bits| |] eqn:E.
    + assert (Hl : loaded W (addrOf g offset)) by now exists bits.
      destruct (wrapInt bits =? currGid).
      * injection H as <- <-. exists [addrOf g offset].
        split; [reflexivity|]. now repeat constructor.
      * apply IH in H as (l & -> & Hr).
        exists (l ++ [addrOf g offset]). rewrite logged_read.
        split; [reflexivity|].
        destruct r.
        -- apply Forall_app. split; [assumption|now repeat constructor].
        -- destruct Hr as (a & l' & -> & Ha).
           now exists a, (l' ++ [addrOf g offset]).
        -- destruct Hr as (Hp & a & l' & -> & Ha). split; [assumption|].
           now exists a, (l' ++ [addrOf g offset]).
        -- apply Forall_app. split; [assumption|now repeat constructor].
    + injection H as <- <-. exists [addrOf g offset].
      split; [reflexivity|].
      exists (addrOf g offset), []. split; [reflexivity|].
      intros [b Hb]. congruence.
    + assert (Hl : ~ loaded W (addrOf g offset))
        by (intros [b Hb]; congruence).
      destruct (panicOnFault s) eqn:Ep; injection H as <- <-;
        exists [addrOf g offset]; (split; [reflexivity|]).
      * now exists (addrOf g offset), [].
      * split; [reflexivity|]. now exists (addrOf g offset), [].
Qed.

(** An empty window: the condition fails at once and nothing is loaded. *)
Lemma findGidOffset_loop_empty g currGid fuel offset maxOffset s :
  maxOffset <= offset ->
  findGidOffset_loop (S fuel) W g currGid offset maxOffset s = (Normal (-1), s).
Proof.
  intros H. simpl. destruct (Z.ltb_spec offset maxOffset); [lia|reflexivity].
Qed.

(** [findGidOffset] with its deferred functions resolved. *)
Lemma findGidOffset_fuel_run fuel t startOffset maxOffset s :
  findGidOffset_fuel fuel W t startOffset maxOffset s =
  if negb (slowGid_of W s t =? 0) && negb (getg W t =? 0) then
    match findGidOffset_loop fuel W (getg W t) (slowGid_of W s t)
            startOffset maxOffset (with_panicOnFault true s) with
    | (Normal r, s1) => (Normal r, with_panicOnFault (panicOnFault s) s1)
    | (Panicking, s1) => (Normal (-1), with_panicOnFault (panicOnFault s) s1)
    | (Crashed, s1) => (Crashed, s1)
    | (Unfinished, s1) => (Unfinished, s1)
    end
  else (Normal (-1), s).
Proof.
  unfold findGidOffset_fuel. unfold bind at 1. rewrite slowGid_run.
  unfold bind at 1. unfold runtime.SetPanicOnFault at 1.
  unfold runtime.deferRecover, runtime.defer.
  destruct (negb (slowGid_of W s t =? 0) && negb (getg W t =? 0)).
  - destruct (findGidOffset_loop _ _ _ _ _ _ _) as [[r| | |] s1]; reflexivity.
  - unfold ret. simpl. now rewrite with_panicOnFault_twice, with_panicOnFault_same.
Qed.

End Finder.

Section FinderClaims.

Variable W : World.

(** C9.  When [startOffset >= maxOffset], [findGidOffset] returns -1 and
    loads nothing from the control block: the log of loads, and in fact
    the whole state, is what it was before the call. *)
Theorem findGidOffset_empty_window t startOffset maxOffset s :
  maxOffset <= startOffset ->
  fst (findGidOffset W t startOffset maxOffset s) = Normal (-1) /\
  reads (snd (findGidOffset W t startOffset maxOffset s)) = reads s /\
  snd (findGidOffset W t startOffset maxOffset s) = s.
Proof.
  intros H. unfold findGidOffset, windowBudget.
  rewrite findGidOffset_fuel_run.
  destruct (negb (slowGid_of W s t =? 0) && negb (getg W t =? 0)).
  - rewrite findGidOffset_loop_empty by assumption. simpl.
    now rewrite with_panicOnFault_twice, with_panicOnFault_same.
  - now simpl.
Qed.

(** C4.  Whatever the window and however long the scan runs: a fault
    never leaves [findGidOffset] (it neither panics nor crashes); if any
    load of the scan faults the call returns -1; and whenever the call
    returns, on the normal path and on the fault path, the panic-on-fault
    mode is the one from before the call.  Indeed nothing but the log of
    loads differs from the state before the call. *)
Theorem findGidOffset_contains_faults fuel t startOffset maxOffset s r s' :
  findGidOffset_fuel fuel W t startOffset maxOffset s = (r, s') ->
  (r <> Panicking /\ r <> Crashed) /\
  (forall l a, reads s' = l ++ reads s -> In a l -> ~ loaded W a ->
               r = Normal (-1)) /\
  (forall x, r = Normal x ->
             panicOnFault s' = panicOnFault s /\
             exists l, s' = logged l s).
Proof.
  rewrite findGidOffset_fuel_run.
  destruct (negb (slowGid_of W s t =? 0) && negb (getg W t =? 0)).
  2:{ intros [= <- <-]. split; [split; discriminate|]. split.
      - intros l a Hl. symmetry in Hl.
        apply (app_inv_tail (reads s) l []) in Hl. now subst.
      - intros x _. split; [reflexivity|]. exists []. now rewrite logged_nil. }
  destruct (findGidOffset_loop _ _ _ _ _ _ _) as [r1 s1] eqn:E.
  apply findGidOffset_loop_trace in E as (l1 & -> & Hr).
  assert (Hin : forall l a, l1 ++ reads s = l ++ reads s -> In a l ->
                            ~ loaded W a -> ~ Forall (loaded W) l1).
  { intros l a Hl Ha Hf Hall. apply app_inv_tail in Hl. subst l1.
    rewrite Forall_forall in Hall. apply Hf, Hall. now apply list_elem_of_In. }
  assert (Hback : with_panicOnFault (panicOnFault s)
                    (logged l1 (with_panicOnFault true s)) = logged l1 s).
  { rewrite logged_flag, with_panicOnFault_twice.
    now rewrite with_panicOnFault_same. }
  destruct r1 as [x1| | |]; intros [= <- <-].
  - split; [split; discriminate|]. split.
    + intros l a Hl Ha Hf. simpl in Hl. now destruct (Hin l a Hl Ha Hf).
    + intros x _. rewrite Hback. split; [reflexivity|]. now exists l1.
  - split; [split; discriminate|]. split.
    + reflexivity.
    + intros x _. rewrite Hback. split; [reflexivity|]. now exists l1.
  - now destruct Hr.
  - split; [split; discriminate|]. split.
    + intros l a Hl Ha Hf. simpl in Hl. now destruct (Hin l a Hl Ha Hf).
    + discriminate.
Qed.

End FinderClaims.

(** ** Windows the stride cannot overrun *)

Section Window.

Variable W : World.
Variables (g : Z) (currGid : GoID).

Lemma stride_no_wrap offset maxOffset :
  isInt offset -> offset < maxOffset -> maxOffset <= maxInt - 7 ->
  wrapInt (offset + gidSize) = offset + 8 /\ isInt (offset + 8).
Proof.
  unfold gidSize. intros H1 H2 H3.
  assert (H : isInt (offset + 8)) by (unfold isInt, maxInt, minInt in *; lia).
  split; [now apply wrapInt_id|assumption].
Qed.

Lemma loop_step_hit fuel offset maxOffset s :
  offset < maxOffset -> storedAt W g offset = Some currGid ->
  findGidOffset_loop (S fuel) W g currGid offset maxOffset s =
  (Normal offset, with_read (addrOf g offset) s).
Proof.
  intros Hlt Hst. simpl.
  destruct (Z.ltb_spec offset maxOffset); [|lia].
  unfold bind. rewrite gidFromG_run. unfold storedAt in Hst.
  destruct (mem W (addrOf g offset)); try discriminate.
  injection Hst as ->. now rewrite Z.eqb_refl.
Qed.

Lemma loop_step_skip fuel offset maxOffset s v :
  offset < maxOffset -> storedAt W g offset = Some v -> v <> currGid ->
  findGidOffset_loop (S fuel) W g currGid offset maxOffset s =
  findGidOffset_loop fuel W g currGid (wrapInt (offset + gidSize)) maxOffset
    (with_read (addrOf g offset) s).
Proof.
  intros Hlt Hst Hne. simpl.
  destruct (Z.ltb_spec offset maxOffset); [|lia].
  unfold bind. rewrite gidFromG_run. unfold storedAt in Hst.
  destruct (mem W (addrOf g offset)); try discriminate.
  injection Hst as ->.
  destruct (Z.eqb_spec v currGid); [contradiction|reflexivity].
Qed.

(** The first offset of the progression that holds [currGid] is returned,
    provided every load before it succeeds. *)
Lemma loop_first_match maxOffset (Hmax : maxOffset <= maxInt - 7) (k : nat) :
  forall fuel offset s,
  (k < fuel)%nat -> isInt offset ->
  offset + 8 * Z.of_nat k < maxOffset ->
  storedAt W g (offset + 8 * Z.of_nat k) = Some currGid ->
  (forall j, 0 <= j < Z.of_nat k ->
     exists v, storedAt W g (offset + 8 * j) = Some v /\ v <> currGid) ->
  fst (findGidOffset_loop fuel W g currGid offset maxOffset s) =
  Normal (offset + 8 * Z.of_nat k).
Proof.
  induction k as [|k IH]; intros fuel offset s Hf Hi Hlt Hhit Hskip;
    (destruct fuel as [|fuel]; [lia|]).
  - replace (offset + 8 * Z.of_nat 0) with offset in * by lia.
    now rewrite loop_step_hit.
  - destruct (Hskip 0 ltac:(lia)) as (v & Hv & Hne).
    replace (offset + 8 * 0) with offset in Hv by lia.
    rewrite (loop_step_skip _ _ _ _ v) by (assumption || lia).
    destruct (stride_no_wrap offset maxOffset) as [-> Hi']; [assumption|lia|assumption|].
    replace (offset + 8 * Z.of_nat (S k)) with (offset + 8 + 8 * Z.of_nat k) in * by lia.
    apply IH; [lia|assumption|assumption|assumption|].
    intros j Hj. destruct (Hskip (j + 1) ltac:(lia)) as (v' & Hv' & Hne').
    exists v'. split; [|assumption].
    now replace (offset + 8 + 8 * j) with (offset + 8 * (j + 1)) by lia.
Qed.

(** With no offset of the window holding [currGid] and every load
    succeeding, the loop falls through. *)
Lemma loop_no_match maxOffset (Hmax : maxOffset <= maxInt - 7) fuel :
  forall offset s,
  (Z.to_nat (maxOffset - offset) < fuel)%nat -> isInt offset ->
  (forall j, 0 <= j -> offset + 8 * j < maxOffset ->
     exists v, storedAt W g (offset + 8 * j) = Some v /\ v <> currGid) ->
  fst (findGidOffset_loop fuel W g currGid offset maxOffset s) = Normal (-1).
Proof.
  induction fuel as [|fuel IH]; intros offset s Hf Hi Hskip; [lia|].
  destruct (Z.lt_ge_cases offset maxOffset) as [Hlt|Hge].
  2:{ now rewrite findGidOffset_loop_empty. }
  destruct (Hskip 0 ltac:(lia) ltac:(lia)) as (v & Hv & Hne).
  replace (offset + 8 * 0) with offset in Hv by lia.
  rewrite (loop_step_skip _ _ _ _ v) by assumption.
  destruct (stride_no_wrap offset maxOffset) as [-> Hi']; [assumption..|].
  apply IH; [lia|assumption|].
  intros j Hj Hjlt. destruct (Hskip (j + 1) ltac:(lia) ltac:(lia)) as (v' & Hv' & Hne').
  exists v'. split; [|assumption].
  now replace (offset + 8 + 8 * j) with (offset + 8 * (j + 1)) by lia.
Qed.

(** Whatever the loop returns is -1 or an offset of the progression,
    inside the window, that holds [currGid]. *)
Lemma loop_result_range maxOffset (Hmax : maxOffset <= maxInt - 7) fuel :
  forall offset s r s',
  isInt offset ->
  findGidOffset_loop fuel W g currGid offset maxOffset s = (Normal r, s') ->
  r = -1 \/
  (offset <= r < maxOffset /\ (r - offset) mod 8 = 0 /\
   storedAt W g r = Some currGid).
Proof.
  induction fuel as [|fuel IH]; intros offset s r s' Hi H; simpl in H.
  - discriminate.
  - destruct (Z.ltb_spec offset maxOffset) as [Hlt|Hge].
    2:{ injection H as <- <-. now left. }
    unfold bind in H. rewrite gidFromG_run in H.
    destruct (mem W (addrOf g offset)) as [bits| |] eqn:E.
    + destruct (Z.eqb_spec (wrapInt bits) currGid) as [Heq|Hne].
      * injection H as <- <-. right. split; [lia|]. split.
        -- now rewrite Z.sub_diag.
        -- unfold storedAt. now rewrite E, Heq.
      * destruct (stride_no_wrap offset maxOffset) as [Hw Hi']; [assumption..|].
        rewrite Hw in H. apply IH in H as [->|(H1 & H2 & H3)]; [now left| |assumption].
        right. split; [lia|]. split; [|assumption].
        replace (r - offset) with (r - (offset + 8) + 1 * 8) by lia.
        now rewrite Z.mod_add by lia.
    + discriminate.
    + destruct (panicOnFault s); discriminate.
Qed.

(** The loop is over within the window's budget. *)
Lemma loop_finishes maxOffset (Hmax : maxOffset <= maxInt - 7) fuel :
  forall offset s,
  (Z.to_nat (maxOffset - offset) < fuel)%nat -> isInt offset ->
  fst (findGidOffset_loop fuel W g currGid offset maxOffset s) <> Unfinished.
Proof.
  induction fuel as [|fuel IH]; intros offset s Hf Hi; [lia|]. simpl.
  destruct (Z.ltb_spec offset maxOffset) as [Hlt|Hge]; [|discriminate].
  unfold bind. rewrite gidFromG_run.
  destruct (mem W (addrOf g offset)) as [bits| |]; [|discriminate|].
  - destruct (wrapInt bits =? currGid); [discriminate|].
    destruct (stride_no_wrap offset maxOffset) as [-> Hi']; [assumption..|].
    apply IH; [lia|assumption].
  - destruct (panicOnFault s); discriminate.
Qed.

End Window.

Section FirstMatch.

Variable W : World.

(** Within a window the stride cannot overrun, [findGidOffset] always
    returns, with -1 or an offset of the progression inside the window, and
    changes nothing but the log of loads. *)
Lemma findGidOffset_returns t startOffset maxOffset s :
  isInt startOffset -> maxOffset <= maxInt - 7 ->
  exists r l,
    findGidOffset W t startOffset maxOffset s = (Normal r, logged l s) /\
    (r = -1 \/
     (startOffset <= r < maxOffset /\ (r - startOffset) mod 8 = 0)).
Proof.
  intros Hi Hmax. unfold findGidOffset. rewrite findGidOffset_fuel_run.
  destruct (negb (slowGid_of W s t =? 0) && negb (getg W t =? 0)).
  2:{ exists (-1), []. rewrite logged_nil. split; [reflexivity|now left]. }
  destruct (findGidOffset_loop _ _ _ _ _ _ _) as [r1 s1] eqn:E.
  pose proof (loop_finishes W (getg W t) (slowGid_of W s t) maxOffset Hmax
                (windowBudget startOffset maxOffset) startOffset
                (with_panicOnFault true s)) as Hfin.
  rewrite E in Hfin. simpl in Hfin.
  specialize (Hfin ltac:(unfold windowBudget; lia) Hi).
  pose proof (findGidOffset_loop_trace _ _ _ _ _ _ _ _ _ E) as (l & -> & Hr).
  assert (Hback : with_panicOnFault (panicOnFault s)
                    (logged l (with_panicOnFault true s)) = logged l s).
  { rewrite logged_flag, with_panicOnFault_twice.
    now rewrite with_panicOnFault_same. }
  destruct r1 as [r| | |].
  - exists r, l. rewrite Hback. split; [reflexivity|].
    apply loop_result_range in E as [->|(H1 & H2 & _)];
      [now left|right; now split|assumption..].
  - exists (-1), l. rewrite Hback. split; [reflexivity|now left].
  - now destruct Hr.
  - contradiction.
Qed.

(** C3.  Take a window whose bounds are [int]s and whose upper bound is a
    multiple of 8, the width of an id (the bounds the package passes, 0
    and [gSize] and the offsets in between, are such).  [findGidOffset]
    returns -1 when the slow-path id is 0 or the control block reference
    is nil.  Otherwise it returns the first offset of [startOffset],
    [startOffset + 8], ... below [maxOffset] whose stored value is the
    slow-path id, provided the loads before it succeed; and -1 when every
    offset of the window holds another value. *)
Theorem findGidOffset_first_match t startOffset maxOffset s :
  isInt startOffset -> isInt maxOffset -> maxOffset mod 8 = 0 ->
  let currGid := slowGid_of W s t in
  let g := getg W t in
  let result := fst (findGidOffset W t startOffset maxOffset s) in
  (currGid = 0 \/ g = 0 -> result = Normal (-1)) /\
  (currGid <> 0 -> g <> 0 ->
   (forall k, 0 <= k -> startOffset + 8 * k < maxOffset ->
      storedAt W g (startOffset + 8 * k) = Some currGid ->
      (forall j, 0 <= j < k ->
         exists v, storedAt W g (startOffset + 8 * j) = Some v /\ v <> currGid) ->
      result = Normal (startOffset + 8 * k)) /\
   ((forall j, 0 <= j -> startOffset + 8 * j < maxOffset ->
       exists v, storedAt W g (startOffset + 8 * j) = Some v /\ v <> currGid) ->
    result = Normal (-1))).
Proof.
  intros Hi Hi' Haligned currGid g result. subst result.
  assert (Hmax : maxOffset <= maxInt - 7).
  { pose proof (Z.div_mod maxOffset 8 ltac:(lia)) as Hdiv.
    unfold isInt, minInt, maxInt in *. lia. }
  unfold findGidOffset. rewrite findGidOffset_fuel_run. fold currGid g.
  split.
  - intros [H|H]; rewrite H; [reflexivity|].
    now rewrite andb_false_r.
  - intros Hc Hg.
    destruct (Z.eqb_spec currGid 0); [contradiction|].
    destruct (Z.eqb_spec g 0); [contradiction|]. simpl negb. simpl andb.
    split.
    + intros k Hk Hlt Hhit Hskip.
      pose proof (loop_first_match W g currGid maxOffset Hmax (Z.to_nat k)
                    (windowBudget startOffset maxOffset) startOffset
                    (with_panicOnFault true s)) as H.
      rewrite Z2Nat.id in H by assumption.
      specialize (H ltac:(unfold windowBudget; lia) Hi Hlt Hhit Hskip).
      destruct (findGidOffset_loop _ _ _ _ _ _ _) as [r1 s1].
      simpl in H. now subst r1.
    + intros Hskip.
      pose proof (loop_no_match W g currGid maxOffset Hmax
                    (windowBudget startOffset maxOffset) startOffset
                    (with_panicOnFault true s)
                    ltac:(unfold windowBudget; lia) Hi Hskip) as H.
      destruct (findGidOffset_loop _ _ _ _ _ _ _) as [r1 s1].
      simpl in H. now subst r1.
Qed.

End FirstMatch.

(** A use of [findGidOffset_first_match]: goroutine 3 of a runtime with the
    id at offset 152 scans the window from 0 to [gSize]; the nineteen
    offsets before 152 hold zero, and the scan returns 152. *)
Lemma findGidOffset_first_match_witness :
  fst (findGidOffset (exampleWorld [152] 1024) 3 0 256 zeroState) = Normal 152.
Proof.
  pose proof (findGidOffset_first_match (exampleWorld [152] 1024) 3%nat 0 256
                zeroState) as H.
  destruct H as [_ H].
  - unfold isInt, minInt, maxInt. lia.
  - unfold isInt, minInt, maxInt. lia.
  - reflexivity.
  - destruct H as [H _].
    + vm_compute. discriminate.
    + vm_compute. discriminate.
    + apply (H 19).
      * lia.
      * lia.
      * vm_compute. reflexivity.
      * intros j Hj.
        assert (Hj' : j = 0 \/ j = 1 \/ j = 2 \/ j = 3 \/ j = 4 \/ j = 5 \/
                      j = 6 \/ j = 7 \/ j = 8 \/ j = 9 \/ j = 10 \/ j = 11 \/
                      j = 12 \/ j = 13 \/ j = 14 \/ j = 15 \/ j = 16 \/
                      j = 17 \/ j = 18) by lia.
        exists 0.
        repeat (destruct Hj' as [->|Hj'];
                [split; [vm_compute; reflexivity|vm_compute; discriminate]|]).
        subst j. split; [vm_compute; reflexivity|vm_compute; discriminate].
Defined.

(** ** The offset validator *)

Section Validator.

Variable W : World.

Lemma allReceived_forallb received :
  allReceived received = forallb id received.
Proof.
  unfold allReceived.
  assert (H : forall acc, fold_left (fun result v => if negb v then false else result)
                            received acc = acc && forallb id received).
  { induction received as [|v l IH]; intros acc; simpl.
    - now rewrite andb_true_r.
    - rewrite IH. now destruct v, acc. }
  now rewrite H.
Qed.

(** The order in which the values arrive on the channel does not matter. *)
Lemma allReceived_Permutation received received' :
  received ≡ₚ received' -> allReceived received = allReceived received'.
Proof.
  intros H. rewrite !allReceived_forallb.
  induction H as [|x l l' _ IH|x y l|l l' l'' _ IH1 _ IH2]; simpl.
  - reflexivity.
  - now rewrite IH.
  - now destruct x, y.
  - now rewrite IH1.
Qed.

(** The probe with its deferred function resolved. *)
Lemma probe_run offset t s :
  checkGidOffset_probe W offset t s =
  if negb (slowGid_of W s t =? 0) && negb (getg W t =? 0) then
    match mem W (addrOf (getg W t) offset) with
    | Loaded bits =>
        (Normal (wrapInt bits =? slowGid_of W s t),
         with_read (addrOf (getg W t) offset) s)
    | NilFault => (Normal false, with_read (addrOf (getg W t) offset) s)
    | AddrFault =>
        if panicOnFault s
        then (Normal false, with_read (addrOf (getg W t) offset) s)
        else (Crashed, with_read (addrOf (getg W t) offset) s)
    end
  else (Normal false, s).
Proof.
  unfold checkGidOffset_probe. unfold bind at 1. rewrite slowGid_run.
  unfold runtime.deferRecover.
  destruct (negb (slowGid_of W s t =? 0) && negb (getg W t =? 0)); [|reflexivity].
  unfold bind. rewrite gidFromG_run.
  destruct (mem W (addrOf (getg W t) offset)); [reflexivity..|].
  destruct (panicOnFault s); reflexivity.
Qed.

(** A probe goroutine, started by [go]: it sends whether it succeeded,
    unless its load faults at a non-nil address, which ends the process. *)
Lemma probe_go offset s :
  exists l,
    runtime.go (checkGidOffset_probe W offset) s =
    (if probeFaults W s offset (nextTid s) then Crashed
     else Normal (probeSucceeds W s offset (nextTid s)),
     logged l (with_nextTid (S (nextTid s)) s)).
Proof.
  unfold runtime.go. rewrite probe_run. unfold probeFaults, probeSucceeds, storedAt.
  change (slowGid_of W (with_panicOnFault false (with_nextTid (S (nextTid s)) s)))
    with (slowGid_of W s).
  destruct (negb (slowGid_of W s (nextTid s) =? 0) && negb (getg W (nextTid s) =? 0)).
  2:{ exists []. simpl. now rewrite logged_nil. }
  exists [addrOf (getg W (nextTid s)) offset].
  destruct (mem W (addrOf (getg W (nextTid s)) offset)); reflexivity.
Qed.

(** The whole batch: [checkGidOffset] is true exactly when every probe
    succeeds, as long as no probe's load faults at a non-nil address. *)
Lemma spawn_probes offset n :
  forall s,
  fst (spawnAll n (checkGidOffset_probe W offset) s) =
  if existsb (probeFaults W s offset) (started s n) then Crashed
  else Normal (map (probeSucceeds W s offset) (started s n)).
Proof.
  unfold started.
  induction n as [|n IH]; intros s; [reflexivity|]. simpl.
  unfold bind at 1.
  destruct (probe_go offset s) as (l & ->).
  destruct (probeFaults W s offset (nextTid s)); [reflexivity|]. simpl.
  unfold bind at 1. specialize (IH (logged l (with_nextTid (S (nextTid s)) s))).
  destruct (spawnAll n _ _) as [r s2]. simpl in IH. subst r.
  change (nextTid (logged l (with_nextTid (S (nextTid s)) s))) with (S (nextTid s)).
  change (probeFaults W (logged l (with_nextTid (S (nextTid s)) s)))
    with (probeFaults W s).
  change (probeSucceeds W (logged l (with_nextTid (S (nextTid s)) s)))
    with (probeSucceeds W s).
  destruct (existsb _ _); reflexivity.
Qed.

Lemma checkGidOffset_batch offset s :
  fst (checkGidOffset W offset s) =
  if existsb (probeFaults W s offset) (started s (Z.to_nat checkCount)) then Crashed
  else Normal (forallb (probeSucceeds W s offset) (started s (Z.to_nat checkCount))).
Proof.
  unfold checkGidOffset, bind. generalize (Z.to_nat checkCount). intros n.
  pose proof (spawn_probes offset n s) as H.
  destruct (spawnAll _ _ _) as [r s1]. cbn [fst] in H. subst r.
  destruct (existsb _ _); [reflexivity|]. unfold ret. cbn [fst].
  rewrite allReceived_forallb. f_equal.
  induction (started s n) as [|t l IH]; [reflexivity|].
  cbn [map forallb]. now rewrite IH.
Qed.

End Validator.

(** C5, at the point where the code departs from it.  [checkGidOffset]
    is asked about the offset [1 << 40], far behind the control blocks.
    The load of a probe faults at a non-nil address; the probe runs in a
    goroutine of its own, in which nothing has switched panic-on-fault on,
    so the fault is not a panic that the deferred [recover] could stop: the
    process ends and [checkGidOffset] returns nothing, where C5 has it
    return false.  The same load inside [findGidOffset], which does switch
    panic-on-fault on, is contained. *)
Lemma checkGidOffset_probe_fault_crashes :
  let W := exampleWorld [152] 1024 in
  let offset := 2 ^ 40 in
  probeFaults W zeroState offset 1 = true /\
  fst (checkGidOffset W offset zeroState) = Crashed /\
  fst (findGidOffset W 1 offset (offset + 8) zeroState) = Normal (-1).
Proof.
  cbv zeta. repeat split; vm_compute; reflexivity.
Qed.

(** ** The package variables are only read *)

Section Frame.

Variable W : World.

Lemma keeps_ret {A} (a : A) : keepsVars (ret a).
Proof. now intros s. Qed.

Lemma keeps_lift {A} (r : Result A) : keepsVars (lift r).
Proof. now intros s. Qed.

Lemma keeps_bind {A B} (m : Exec A) (k : A -> Exec B) :
  keepsVars m -> (forall a, keepsVars (k a)) -> keepsVars (bind m k).
Proof.
  intros Hm Hk s. unfold bind. specialize (Hm s).
  destruct (m s) as [[a| | |] s1]; simpl in Hm; [|assumption..].
  destruct (Hk a s1) as [H1 H2]. destruct Hm as [H3 H4].
  split; congruence.
Qed.

Lemma keeps_load addr : keepsVars (runtime.load W addr).
Proof.
  intros s. unfold runtime.load.
  destruct (mem W addr); [now split..|].
  now destruct (panicOnFault s).
Qed.

Lemma keeps_SetPanicOnFault b : keepsVars (runtime.SetPanicOnFault b).
Proof. now intros s. Qed.

Lemma keeps_defer {A B} (d : Exec B) (body : Exec A) :
  keepsVars d -> keepsVars body -> keepsVars (runtime.defer d body).
Proof.
  intros Hd Hb s. unfold runtime.defer. specialize (Hb s).
  destruct (body s) as [[a| | |] s1]; simpl in *; try assumption;
    destruct (Hd s1) as [H1 H2]; destruct Hb as [H3 H4]; split; congruence.
Qed.

Lemma keeps_deferRecover {A} (v : A) (body : Exec A) :
  keepsVars body -> keepsVars (runtime.deferRecover v body).
Proof.
  intros Hb s. unfold runtime.deferRecover. specialize (Hb s).
  now destruct (body s) as [[a| | |] s1].
Qed.

Lemma keeps_go {A} (f : Tid -> Exec A) :
  (forall t, keepsVars (f t)) -> keepsVars (runtime.go f).
Proof.
  intros Hf s. unfold runtime.go.
  specialize (Hf (nextTid s) (with_panicOnFault false (with_nextTid (S (nextTid s)) s))).
  destruct (f _ _) as [[a| | |] s1]; exact Hf.
Qed.

Lemma keeps_spawnAll {A} (f : Tid -> Exec A) n :
  (forall t, keepsVars (f t)) -> keepsVars (spawnAll n f).
Proof.
  intros Hf. induction n as [|n IH]; simpl.
  - apply keeps_ret.
  - apply keeps_bind; [now apply keeps_go|]. intros a.
    apply keeps_bind; [assumption|]. intros l. apply keeps_ret.
Qed.

Lemma keeps_var_goroutinePrefix : keepsVars var_goroutinePrefix.
Proof. now intros s. Qed.

Lemma keeps_var_gidOffset : keepsVars var_gidOffset.
Proof. now intros s. Qed.

Create HintDb frame.
#[local] Hint Resolve keeps_ret keeps_lift keeps_load keeps_SetPanicOnFault
  keeps_var_goroutinePrefix keeps_var_gidOffset : frame.
#[local] Hint Extern 2 (keepsVars (bind _ _)) =>
  apply keeps_bind; [|intros ?] : frame.
#[local] Hint Extern 2 (keepsVars (runtime.defer _ _)) =>
  apply keeps_defer : frame.
#[local] Hint Extern 2 (keepsVars (runtime.deferRecover _ _)) =>
  apply keeps_deferRecover : frame.
#[local] Hint Extern 2 (keepsVars (runtime.go _)) =>
  apply keeps_go; intros ? : frame.
#[local] Hint Extern 2 (keepsVars (spawnAll _ _)) =>
  apply keeps_spawnAll; intros ? : frame.
#[local] Hint Extern 3 (keepsVars (if ?b then _ else _)) =>
  destruct b : frame.
#[local] Hint Extern 3 (keepsVars (match ?o with Some _ => _ | None => _ end)) =>
  destruct o : frame.

Lemma keeps_slowGid t : keepsVars (slowGid W t).
Proof. unfold slowGid. auto with frame. Qed.

Lemma keeps_gidFromG g offset : keepsVars (gidFromG W g offset).
Proof. unfold gidFromG. auto with frame. Qed.

#[local] Hint Resolve keeps_slowGid keeps_gidFromG : frame.

Lemma keeps_fastGid t : keepsVars (fastGid W t).
Proof. unfold fastGid. auto with frame. Qed.

Lemma keeps_FastGetGoIDAvailable : keepsVars FastGetGoIDAvailable.
Proof. unfold FastGetGoIDAvailable. auto with frame. Qed.

#[local] Hint Resolve keeps_fastGid keeps_FastGetGoIDAvailable : frame.

Lemma keeps_GetGoID t : keepsVars (GetGoID W t).
Proof. unfold GetGoID. auto with frame. Qed.

Lemma keeps_findGidOffset_loop g currGid fuel :
  forall offset maxOffset,
  keepsVars (findGidOffset_loop fuel W g currGid offset maxOffset).
Proof.
  induction fuel as [|fuel IH]; intros offset maxOffset; simpl; auto with frame.
Qed.

#[local] Hint Resolve keeps_findGidOffset_loop : frame.

Lemma keeps_findGidOffset_fuel fuel t startOffset maxOffset :
  keepsVars (findGidOffset_fuel fuel W t startOffset maxOffset).
Proof. unfold findGidOffset_fuel. auto 7 with frame. Qed.

Lemma keeps_findGidOffset t startOffset maxOffset :
  keepsVars (findGidOffset W t startOffset maxOffset).
Proof. apply keeps_findGidOffset_fuel. Qed.

Lemma keeps_probe offset t : keepsVars (checkGidOffset_probe W offset t).
Proof. unfold checkGidOffset_probe. auto 7 with frame. Qed.

#[local] Hint Resolve keeps_findGidOffset keeps_probe : frame.

Lemma keeps_checkGidOffset offset : keepsVars (checkGidOffset W offset).
Proof. unfold checkGidOffset. auto with frame. Qed.

#[local] Hint Resolve keeps_checkGidOffset : frame.

Lemma keeps_voter_loop t fuel :
  forall offset localCandidateOffsets,
  keepsVars (voter_loop fuel W t offset localCandidateOffsets).
Proof.
  induction fuel as [|fuel IH]; intros offset l; simpl; auto 7 with frame.
Qed.

Lemma keeps_voter t : keepsVars (voter W t).
Proof. apply keeps_voter_loop. Qed.

#[local] Hint Resolve keeps_voter : frame.

Lemma keeps_getGidOffset order : keepsVars (getGidOffset order W).
Proof. unfold getGidOffset. auto with frame. Qed.

#[local] Hint Resolve keeps_GetGoID keeps_getGidOffset : frame.

Lemma keeps_call c : keepsVars (call W c).
Proof. destruct c; unfold call, discard; auto with frame. Qed.

Lemma keeps_calls cs : keepsVars (calls W cs).
Proof.
  induction cs as [|c cs IH]; simpl.
  - apply keeps_ret.
  - apply keeps_bind; [apply keeps_call|now intros _].
Qed.

End Frame.

(** ** The voters *)

Section Voters.

Variable W : World.

Lemma spawnAll_Normal {A} (f : Tid -> Exec A) (P : A -> Prop) :
  (forall t s a s', f t s = (Normal a, s') -> P a) ->
  forall n s l s',
  spawnAll n f s = (Normal l, s') -> length l = n /\ Forall P l.
Proof.
  intros Hf. induction n as [|n IH]; intros s l s' H; simpl in H.
  - injection H as <- <-. now split.
  - unfold bind at 1 in H. unfold runtime.go at 1 in H.
    destruct (f _ _) as [[a| | |] s1] eqn:Ef; try discriminate.
    unfold bind at 1 in H.
    destruct (spawnAll n f _) as [[l'| | |] s2] eqn:E; try discriminate.
    injection H as <- <-. apply IH in E as [E1 E2]. apply Hf in Ef.
    split; [simpl; now f_equal|now constructor].
Qed.

Lemma gSize_in_range : gSize <= maxInt - 7.
Proof. unfold gSize, maxInt. lia. Qed.

Lemma voter_loop_candidates t fuel :
  forall offset local s l s',
  0 <= offset -> offset mod 8 = 0 -> candidateList offset local ->
  voter_loop fuel W t offset local s = (Normal l, s') ->
  candidateList gSize l.
Proof.
  induction fuel as [|fuel IH]; intros offset local s l s' H0 H8 Hl H;
    cbn [voter_loop] in H; [discriminate|].
  destruct (Z.ltb_spec offset gSize) as [Hlt|Hge].
  2:{ injection H as <- <-. destruct Hl as [Hnd Hall]. split; [assumption|].
      eapply Forall_impl; [exact Hall|]. simpl. intros o Ho. lia. }
  unfold bind at 1 in H.
  destruct (findGidOffset_returns W t offset gSize s) as (r & lg & Hrun & Hr).
  { unfold isInt, minInt, maxInt, gSize in *. lia. }
  { apply gSize_in_range. }
  rewrite Hrun in H.
  destruct (Z.eqb_spec r (-1)) as [->|Hne].
  { injection H as <- <-. destruct Hl as [Hnd Hall]. split; [assumption|].
    eapply Forall_impl; [exact Hall|]. simpl. intros o Ho. lia. }
  destruct Hr as [Hr|[Hr1 Hr2]]; [contradiction|].
  unfold bind at 1 in H.
  destruct (checkGidOffset W r (logged lg s)) as [[ok| | |] s2]; try discriminate.
  assert (Hw : wrapInt (r + gidSize) = r + 8).
  { apply wrapInt_id. unfold isInt, minInt, maxInt, gidSize, gSize in *. lia. }
  rewrite Hw in H.
  assert (Hr8 : r mod 8 = 0).
  { replace r with ((r - offset) + offset) by lia.
    rewrite Z.add_mod, Hr2, H8 by lia. reflexivity. }
  apply IH in H; [assumption|lia| |].
  - replace (r + 8) with (r + 1 * 8) by lia. now rewrite Z.mod_add by lia.
  - destruct Hl as [Hnd Hall]. destruct ok.
    + split.
      * apply NoDup_app. split; [assumption|]. split; [|apply NoDup_singleton].
        intros x Hx Hx'. apply list_elem_of_singleton in Hx'. subst x.
        rewrite Forall_forall in Hall. specialize (Hall r Hx). lia.
      * apply Forall_app. split.
        -- eapply Forall_impl; [exact Hall|]. simpl. intros o Ho. lia.
        -- constructor; [|constructor]. lia.
    + split; [assumption|].
      eapply Forall_impl; [exact Hall|]. simpl. intros o Ho. lia.
Qed.

Lemma voter_candidates t s l s' :
  voter W t s = (Normal l, s') -> candidateList gSize l.
Proof.
  unfold voter. apply voter_loop_candidates; [lia|reflexivity|].
  split; constructor.
Qed.

(** The budget of a voter is never used up. *)
Lemma voter_loop_finishes t fuel :
  forall offset local s,
  0 <= offset -> (Z.to_nat (gSize - offset) < fuel)%nat ->
  fst (voter_loop fuel W t offset local s) <> Unfinished.
Proof.
  induction fuel as [|fuel IH]; intros offset local s H0 Hf; [lia|].
  cbn [voter_loop].
  destruct (Z.ltb_spec offset gSize) as [Hlt|Hge]; [|discriminate].
  unfold bind at 1.
  destruct (findGidOffset_returns W t offset gSize s) as (r & lg & -> & Hr).
  { unfold isInt, minInt, maxInt, gSize in *. lia. }
  { apply gSize_in_range. }
  destruct (Z.eqb_spec r (-1)) as [->|Hne]; [discriminate|].
  destruct Hr as [Hr|[Hr1 Hr2]]; [contradiction|].
  unfold bind at 1.
  pose proof (checkGidOffset_batch W r (logged lg s)) as Hc.
  destruct (checkGidOffset W r (logged lg s)) as [[ok| | |] s2]; cbn [fst] in Hc.
  - rewrite wrapInt_id
      by (unfold isInt, minInt, maxInt, gidSize, gSize in *; lia).
    apply IH; unfold gidSize; lia.
  - discriminate.
  - discriminate.
  - now destruct (existsb _ _).
Qed.

Lemma voter_finishes t s : fst (voter W t s) <> Unfinished.
Proof.
  unfold voter. apply voter_loop_finishes; [lia|unfold windowBudget; lia].
Qed.

(** The lists the resolver receives. *)
Lemma voters_candidates s lists s' :
  spawnAll (Z.to_nat voterCount) (voter W) s = (Normal lists, s') ->
  length lists = Z.to_nat voterCount /\ Forall (candidateList gSize) lists.
Proof.
  apply spawnAll_Normal. intros t s0 a s1. apply voter_candidates.
Qed.

End Voters.

(** ** Counting the votes *)

Section Tally.

Lemma vote_lookup m o o' :
  vote m o !! o' =
  if bool_decide (o' = o) then Some (wrapInt (default 0 (m !! o) + 1))
  else m !! o'.
Proof.
  unfold vote. case_bool_decide as H.
  - subst. apply lookup_insert_eq.
  - now apply lookup_insert_ne.
Qed.

(** One voter's list adds one vote to each of its offsets. *)
Lemma fold_vote_lookup l :
  NoDup l ->
  forall m o,
  fold_left vote l m !! o =
  if bool_decide (o ∈ l) then Some (wrapInt (default 0 (m !! o) + 1))
  else m !! o.
Proof.
  induction l as [|x l IH]; intros Hnd m o; simpl.
  - reflexivity.
  - apply NoDup_cons in Hnd as [Hx Hnd]. rewrite (IH Hnd).
    rewrite !vote_lookup.
    destruct (decide (o = x)) as [->|Hne].
    + rewrite (bool_decide_eq_false_2 (x ∈ l)) by exact Hx.
      rewrite (bool_decide_eq_true_2 (x = x)) by reflexivity.
      now rewrite (bool_decide_eq_true_2 (x ∈ x :: l)) by apply list_elem_of_here.
    + rewrite (bool_decide_eq_false_2 (o = x)) by exact Hne.
      destruct (decide (o ∈ l)) as [Hin|Hout].
      * rewrite (bool_decide_eq_true_2 (o ∈ l)) by exact Hin.
        now rewrite (bool_decide_eq_true_2 (o ∈ x :: l))
          by now apply list_elem_of_further.
      * rewrite (bool_decide_eq_false_2 (o ∈ l)) by exact Hout.
        rewrite (bool_decide_eq_false_2 (o ∈ x :: l)); [reflexivity|].
        rewrite elem_of_cons. now intros [?|?].
Qed.

Lemma tallyOf_default n : default 0 (tallyOf n) = Z.of_nat n.
Proof. now destruct n. Qed.

Lemma tally_invariant lists :
  Forall NoDup lists ->
  forall (m : gmap Z Z) (c : Z -> nat),
  (forall o, m !! o = tallyOf (c o)) ->
  (forall o, Z.of_nat (c o + length lists) <= maxInt) ->
  forall o,
  fold_left (fun m offsets => fold_left vote offsets m) lists m !! o =
  tallyOf (c o + support lists o).
Proof.
  induction lists as [|l ls IH]; intros Hnd m c Hm Hb o; simpl.
  - rewrite Nat.add_0_r. apply Hm.
  - apply Forall_cons in Hnd as [Hl Hls].
    rewrite Nat.add_assoc.
    pose (c' := fun o' : Z => (c o' + if bool_decide (o' ∈ l) then 1 else 0)%nat).
    apply (IH Hls (fold_left vote l m) c').
    + intros o'. unfold c'. rewrite (fold_vote_lookup l Hl). rewrite Hm.
      case_bool_decide.
      * rewrite tallyOf_default. rewrite wrapInt_id.
        -- rewrite Nat.add_1_r. simpl tallyOf. f_equal. lia.
        -- specialize (Hb o'). simpl in Hb. unfold isInt, minInt, maxInt in *. lia.
      * now rewrite Nat.add_0_r.
    + intros o'. unfold c'. specialize (Hb o'). simpl in Hb. case_bool_decide; lia.
Qed.

(** The map of votes holds, for every offset, the number of voters that
    listed it, and no entry for an offset nobody listed. *)
Lemma countVotes_lookup lists o :
  Forall NoDup lists -> Z.of_nat (length lists) <= maxInt ->
  countVotes lists !! o = tallyOf (support lists o).
Proof.
  intros Hnd Hlen. unfold countVotes.
  apply (tally_invariant lists Hnd ∅ (fun _ => 0%nat)).
  - intros o'. apply lookup_empty.
  - intros _. simpl. assumption.
Qed.

Lemma support_le lists o : (support lists o <= length lists)%nat.
Proof.
  induction lists as [|l ls IH]; simpl; [lia|]. case_bool_decide; lia.
Qed.

Lemma support_full lists o :
  support lists o = length lists <-> unanimous lists o.
Proof.
  unfold unanimous. induction lists as [|l ls IH]; simpl.
  - split; [constructor|reflexivity].
  - pose proof (support_le ls o). rewrite Forall_cons.
    case_bool_decide as H1; split.
    + intros H2. split; [assumption|]. apply IH. lia.
    + intros [_ H2]. apply IH in H2. lia.
    + lia.
    + now intros [H2 _].
Qed.

Lemma support_Permutation lists lists' o :
  lists ≡ₚ lists' -> support lists o = support lists' o.
Proof.
  induction 1 as [|l ls ls' _ IH|l l' ls|ls ls' ls'' _ IH1 _ IH2]; simpl; lia.
Qed.

(** The order in which the lists arrive on the channel does not matter to
    the map of votes. *)
Lemma countVotes_Permutation lists lists' :
  lists ≡ₚ lists' ->
  Forall NoDup lists -> Z.of_nat (length lists) <= maxInt ->
  countVotes lists = countVotes lists'.
Proof.
  intros Hp Hnd Hlen. apply map_eq. intros o.
  rewrite (countVotes_lookup lists o Hnd Hlen).
  rewrite (countVotes_lookup lists' o).
  - now rewrite (support_Permutation lists lists' o Hp).
  - now rewrite <- Hp.
  - now rewrite <- Hp.
Qed.

(** The loop over the entries returns an offset with [voterCount] votes,
    or falls through because there is none. *)
Lemma pickUnanimous_cases entries :
  ((pickUnanimous entries, voterCount) ∈ entries) \/
  (pickUnanimous entries = -1 /\
   forall o v, (o, v) ∈ entries -> v <> voterCount).
Proof.
  induction entries as [|[o v] rest IH]; simpl.
  - right. split; [reflexivity|]. intros o v H. now apply not_elem_of_nil in H.
  - destruct (Z.eqb_spec v voterCount) as [->|Hne].
    + left. apply list_elem_of_here.
    + destruct IH as [IH|[IH1 IH2]].
      * left. now apply list_elem_of_further.
      * right. split; [assumption|]. intros o' v' H.
        apply elem_of_cons in H as [[= -> ->]|H]; [assumption|].
        now apply (IH2 o').
Qed.

(** What the resolver makes of the voters' lists, whatever the order in
    which it visits the map: an offset that every voter listed, or -1
    because no offset is on every list. *)
Lemma resolve_cases order lists :
  length lists = Z.to_nat voterCount ->
  Forall (candidateList gSize) lists ->
  let r := pickUnanimous (rangeOf order (countVotes lists)) in
  (unanimous lists r /\ countVotes lists !! r = Some voterCount /\
   (0 <= r < gSize /\ r mod 8 = 0)) \/
  (r = -1 /\ forall o, ~ unanimous lists o).
Proof.
  intros Hlen Hall r.
  assert (Hnd : Forall NoDup lists).
  { eapply Forall_impl; [exact Hall|]. now intros l [H _]. }
  assert (Hb : Z.of_nat (length lists) <= maxInt).
  { rewrite Hlen. unfold voterCount, maxInt. lia. }
  assert (Hten : forall o, countVotes lists !! o = Some voterCount <->
                           unanimous lists o).
  { intros o. rewrite (countVotes_lookup lists o Hnd Hb), <- support_full, Hlen.
    unfold voterCount. destruct (support lists o) eqn:E; simpl; split;
      try discriminate; intros H.
    - injection H as H. lia.
    - rewrite H. reflexivity. }
  destruct (pickUnanimous_cases (rangeOf order (countVotes lists))) as [H|[H1 H2]].
  - left. fold r in H. rewrite (rangeOf_perm order) in H.
    apply elem_of_map_to_list in H. split; [now apply Hten|]. split; [assumption|].
    apply Hten in H. unfold unanimous in H.
    destruct lists as [|l ls]; [discriminate|].
    apply Forall_cons in H as [H _]. apply Forall_cons in Hall as [[_ Hl] _].
    rewrite Forall_forall in Hl. specialize (Hl r H). lia.
  - right. split; [assumption|]. intros o Ho. apply Hten in Ho.
    apply elem_of_map_to_list in Ho. rewrite <- (rangeOf_perm order) in Ho.
    now apply H2 in Ho.
Qed.

End Tally.

(** ** The consensus resolver *)

Section Resolver.

Variable W : World.

Lemma getGidOffset_after_voters order s lists s' :
  spawnAll (Z.to_nat voterCount) (voter W) s = (Normal lists, s') ->
  getGidOffset order W s =
  (Normal (pickUnanimous (rangeOf order (countVotes lists))), s').
Proof. intros H. unfold getGidOffset, bind. now rewrite H. Qed.

Lemma getGidOffset_voters order s r s' :
  getGidOffset order W s = (Normal r, s') ->
  exists lists,
    spawnAll (Z.to_nat voterCount) (voter W) s = (Normal lists, s') /\
    r = pickUnanimous (rangeOf order (countVotes lists)).
Proof.
  unfold getGidOffset, bind.
  destruct (spawnAll _ _ _) as [[lists| | |] s1]; try discriminate.
  intros [= <- <-]. now exists lists.
Qed.

(** Every result of the resolver is -1 or an aligned offset inside the
    window. *)
Lemma getGidOffset_range order s r s' :
  getGidOffset order W s = (Normal r, s') ->
  r = -1 \/ (0 <= r < gSize /\ r mod 8 = 0).
Proof.
  intros H. apply getGidOffset_voters in H as (lists & Hv & ->).
  apply voters_candidates in Hv as [Hlen Hall].
  destruct (resolve_cases order lists Hlen Hall) as [(_ & _ & H)|[H _]];
    [now right|now left].
Qed.

Lemma packageInit_run order s :
  packageInit order W s =
  match getGidOffset order W s with
  | (Normal r, s1) => (Normal tt, with_gidOffset r s1)
  | (Panicking, s1) => (Panicking, s1)
  | (Crashed, s1) => (Crashed, s1)
  | (Unfinished, s1) => (Unfinished, s1)
  end.
Proof.
  unfold packageInit, bind.
  now destruct (getGidOffset order W s) as [[r| | |] s1].
Qed.

(** Once [gidOffset] is negative, [FastGetGoIDAvailable] is false after any
    run of package operations. *)
Lemma unavailable_for_good cs s :
  gidOffset s < 0 ->
  fst (FastGetGoIDAvailable (snd (calls W cs s))) = Normal false.
Proof.
  intros H. destruct (keeps_calls W cs s) as [Hk _].
  unfold FastGetGoIDAvailable, bind, var_gidOffset, ret. simpl.
  rewrite Hk. destruct (Z.leb_spec 0 (gidOffset s)); [lia|reflexivity].
Qed.

(** When no load faults at a non-nil address, no probe ends the process:
    the validator, the voters and the resolver all run to completion. *)
Section Completion.

Hypothesis no_addr_fault : forall a, mem W a <> AddrFault.

Lemma checkGidOffset_completes offset s :
  exists ok s', checkGidOffset W offset s = (Normal ok, s').
Proof.
  assert (E : existsb (probeFaults W s offset) (started s (Z.to_nat checkCount)) = false).
  { induction (started s (Z.to_nat checkCount)) as [|t l IH]; [reflexivity|].
    simpl. rewrite IH, orb_false_r. unfold probeFaults.
    destruct (mem W (addrOf (getg W t) offset)) eqn:Em;
      [apply andb_false_r..|].
    now apply no_addr_fault in Em. }
  pose proof (checkGidOffset_batch W offset s) as H.
  rewrite E in H. destruct (checkGidOffset W offset s) as [r s'].
  simpl in H. subst r. eauto.
Qed.

Lemma voter_loop_completes t fuel :
  forall offset local s,
  0 <= offset -> (Z.to_nat (gSize - offset) < fuel)%nat ->
  exists l s', voter_loop fuel W t offset local s = (Normal l, s').
Proof.
  induction fuel as [|fuel IH]; intros offset local s H0 Hf; [lia|].
  cbn [voter_loop].
  destruct (Z.ltb_spec offset gSize) as [Hlt|Hge]; [|unfold ret; eauto].
  unfold bind at 1.
  destruct (findGidOffset_returns W t offset gSize s) as (r & lg & -> & Hr).
  { unfold isInt, minInt, maxInt, gSize in *. lia. }
  { apply gSize_in_range. }
  destruct (Z.eqb_spec r (-1)) as [->|Hne]; [unfold ret; eauto|].
  destruct Hr as [Hr|[Hr1 Hr2]]; [contradiction|].
  unfold bind at 1.
  destruct (checkGidOffset_completes r (logged lg s)) as (ok & s2 & ->).
  rewrite wrapInt_id
    by (unfold isInt, minInt, maxInt, gidSize, gSize in *; lia).
  apply IH; unfold gidSize; lia.
Qed.

Lemma spawnAll_completes {A} (f : Tid -> Exec A) :
  (forall t s, exists a s', f t s = (Normal a, s')) ->
  forall n s, exists l s', spawnAll n f s = (Normal l, s').
Proof.
  intros Hf. induction n as [|n IH]; intros s; simpl; [unfold ret; eauto|].
  unfold bind at 1. unfold runtime.go at 1.
  destruct (Hf (nextTid s) (with_panicOnFault false (with_nextTid (S (nextTid s)) s)))
    as (a & s1 & ->).
  unfold bind at 1.
  destruct (IH (with_panicOnFault (panicOnFault s) s1)) as (l & s2 & ->).
  unfold ret. eauto.
Qed.

Lemma voters_complete s :
  exists lists s',
    spawnAll (Z.to_nat voterCount) (voter W) s = (Normal lists, s').
Proof.
  apply spawnAll_completes. intros t s0. unfold voter.
  apply voter_loop_completes; [lia|unfold windowBudget; lia].
Qed.

Lemma getGidOffset_completes order s :
  exists r s', getGidOffset order W s = (Normal r, s').
Proof.
  destruct (voters_complete s) as (lists & s' & H).
  rewrite (getGidOffset_after_voters order s lists s' H). eauto.
Qed.

End Completion.

End Resolver.

(** ** Unanimity, alignment, determinism and the frozen variable *)

(** C1.  Given the lists the ten voters send: [getGidOffset] returns, and
    a result [r >= 0] is on the list of every voter and has exactly
    [voterCount] votes in the map; if no offset is on every list the
    result is -1, and then [FastGetGoIDAvailable] is false once the
    package is initialised and stays false whatever is called after. *)
Theorem getGidOffset_unanimity order W s lists s1 :
  spawnAll (Z.to_nat voterCount) (voter W) s = (Normal lists, s1) ->
  exists r,
    getGidOffset order W s = (Normal r, s1) /\
    Z.of_nat (length lists) = voterCount /\
    (0 <= r -> unanimous lists r /\ countVotes lists !! r = Some voterCount) /\
    ((forall o, ~ unanimous lists o) ->
     r = -1 /\
     forall cs,
       fst (FastGetGoIDAvailable
              (snd (calls W cs (snd (packageInit order W s))))) = Normal false).
Proof.
  intros Hv. exists (pickUnanimous (rangeOf order (countVotes lists))).
  pose proof (getGidOffset_after_voters W order s lists s1 Hv) as Hrun.
  destruct (voters_candidates W s lists s1 Hv) as [Hlen Hall].
  split; [assumption|]. split; [rewrite Hlen; reflexivity|].
  destruct (resolve_cases order lists Hlen Hall) as [(H1 & H2 & H3)|[H1 H2]].
  - split; [now intros _|]. intros Hno. now destruct (Hno _ H1).
  - split; [rewrite H1; lia|]. intros _. split; [assumption|]. intros cs.
    apply unavailable_for_good. rewrite packageInit_run, Hrun, H1. simpl. lia.
Qed.

(** A use of [getGidOffset_unanimity]: in a runtime that keeps the id at
    offset 152, every voter sends the list [152]. *)
Lemma getGidOffset_unanimity_witness :
  let W := exampleWorld [152] 1024 in
  exists r,
    getGidOffset ascending W zeroState =
      (Normal r, snd (spawnAll (Z.to_nat voterCount) (voter W) zeroState)) /\
    Z.of_nat (length (repeat [152] 10)) = voterCount /\
    (0 <= r -> unanimous (repeat [152] 10) r /\
               countVotes (repeat [152] 10) !! r = Some voterCount) /\
    ((forall o, ~ unanimous (repeat [152] 10) o) ->
     r = -1 /\
     forall cs,
       fst (FastGetGoIDAvailable
              (snd (calls W cs (snd (packageInit ascending W zeroState)))))
       = Normal false).
Proof.
  cbv zeta. apply getGidOffset_unanimity. vm_compute. reflexivity.
Defined.

(** C10.  Every value [getGidOffset] returns is -1 or a multiple of
    [gidSize] = 8 in [0, gSize) = [0, 256); so whenever the fast path is
    available after initialisation, [gidOffset] is such an offset. *)
Theorem getGidOffset_aligned order W s r s' :
  getGidOffset order W s = (Normal r, s') ->
  (r = -1 \/ (0 <= r < gSize /\ r mod gidSize = 0)) /\
  (forall s1, packageInit order W s = (Normal tt, s1) ->
     fst (FastGetGoIDAvailable s1) = Normal true ->
     0 <= gidOffset s1 < 256 /\ gidOffset s1 mod 8 = 0).
Proof.
  intros H. pose proof (getGidOffset_range W order s r s' H) as Hr.
  split; [exact Hr|]. intros s1. rewrite packageInit_run, H.
  intros [= <-]. unfold FastGetGoIDAvailable, bind, var_gidOffset, ret. simpl.
  destruct (Z.leb_spec 0 r); [|discriminate]. intros _.
  unfold gSize in Hr. lia.
Qed.

(** A use of [getGidOffset_aligned]: the runtime with the id at offset 152. *)
Lemma getGidOffset_aligned_witness :
  let W := exampleWorld [152] 1024 in
  (152 = -1 \/ (0 <= 152 < gSize /\ 152 mod gidSize = 0)) /\
  (forall s1, packageInit ascending W zeroState = (Normal tt, s1) ->
     fst (FastGetGoIDAvailable s1) = Normal true ->
     0 <= gidOffset s1 < 256 /\ gidOffset s1 mod 8 = 0).
Proof.
  cbv zeta.
  apply (getGidOffset_aligned ascending (exampleWorld [152] 1024) zeroState 152
           (snd (getGidOffset ascending (exampleWorld [152] 1024) zeroState))).
  vm_compute. reflexivity.
Defined.


(** C7.  Package initialisation sets [gidOffset] to what [getGidOffset]
    returned, which is -1 or not negative; after it, no run of package
    operations changes the variable, and a read of it gives the value
    initialisation left. *)
Theorem gidOffset_frozen order W s0 s1 cs :
  packageInit order W s0 = (Normal tt, s1) ->
  fst (getGidOffset order W s0) = Normal (gidOffset s1) /\
  (gidOffset s1 = -1 \/ 0 <= gidOffset s1) /\
  gidOffset (snd (calls W cs s1)) = gidOffset s1 /\
  fst (var_gidOffset (snd (calls W cs s1))) = Normal (gidOffset s1).
Proof.
  rewrite packageInit_run.
  destruct (getGidOffset order W s0) as [[r| | |] s'] eqn:E; try discriminate.
  intros [= <-]. split; [reflexivity|]. simpl gidOffset at 1 2 3.
  split.
  - apply getGidOffset_range in E as [->|[E _]]; [now left|right; lia].
  - destruct (keeps_calls W cs (with_gidOffset r s')) as [Hk _].
    split; [exact Hk|]. unfold var_gidOffset. simpl. now rewrite Hk.
Qed.

(** A use of [gidOffset_frozen]: after initialisation in the runtime with
    the id at offset 152, goroutine 300 calls [GetGoID], scans the window,
    validates an offset and resolves once more. *)
Lemma gidOffset_frozen_witness :
  let W := exampleWorld [152] 1024 in
  let s1 := snd (packageInit ascending W zeroState) in
  let cs := [CallGetGoID 300; CallFindGidOffset 300 0 256;
             CallCheckGidOffset 152; CallGetGidOffset descending;
             CallFastGetGoIDAvailable] in
  fst (getGidOffset ascending W zeroState) = Normal (gidOffset s1) /\
  (gidOffset s1 = -1 \/ 0 <= gidOffset s1) /\
  gidOffset (snd (calls W cs s1)) = gidOffset s1 /\
  fst (var_gidOffset (snd (calls W cs s1))) = Normal (gidOffset s1).
Proof.
  cbv zeta. apply gidOffset_frozen. vm_compute. reflexivity.
Defined.

(** ** The public accessor and the slow path *)

(** An aligned offset of the window is on the list of the offsets that
    the runnable checks go through. *)
Lemma progression_In n : forall start o k,
  (k < n)%nat -> o = start + 8 * Z.of_nat k -> In o (progression start n).
Proof.
  induction n as [|n IH]; intros start o k Hk Ho; [lia|].
  simpl. destruct k as [|k]; [left; lia|].
  right. apply (IH _ _ k); [lia|]. unfold gidSize. lia.
Qed.

Lemma window_progression o :
  0 <= o < gSize -> o mod 8 = 0 ->
  In o (progression 0 (Z.to_nat (gSize / gidSize))).
Proof.
  intros Ho Hm. apply (progression_In _ _ _ (Z.to_nat (o / 8))).
  - change (gSize / gidSize) with 32. unfold gSize in Ho.
    assert (o / 8 < 32) by (apply Z.div_lt_upper_bound; lia).
    assert (0 <= o / 8) by (apply Z.div_pos; lia). lia.
  - rewrite Z2Nat.id by (apply Z.div_pos; lia).
    pose proof (Z.div_mod o 8 ltac:(lia)). lia.
Qed.

Lemma readableBlockb_spec W t : readableBlockb W t = true -> readableBlock W t.
Proof.
  unfold readableBlockb, readableBlock, loaded. intros H o Ho Hm.
  rewrite forallb_forall in H.
  specialize (H o (window_progression o Ho Hm)).
  destruct (mem W (addrOf (getg W t) o)) as [bits| |]; try discriminate.
  now exists bits.
Qed.

(** C2.  Once the package is initialised, [GetGoID] called by a goroutine
    whose control block is readable over the window (as the "g" of a
    running goroutine is) returns a value at every call, whatever package
    operations ran before: the fast-path value [gidFromG(getg(),
    gidOffset)] when [gidOffset] is not negative, and what [slowGid()]
    returns otherwise.  It never panics and never ends the process. *)
Theorem GetGoID_never_fails order W s0 s1 cs t :
  packageInit order W s0 = (Normal tt, s1) ->
  readableBlock W t ->
  exists v,
    fst (GetGoID W t (snd (calls W cs s1))) = Normal v /\
    (0 <= gidOffset (snd (calls W cs s1)) ->
       GetGoID W t (snd (calls W cs s1)) =
         gidFromG W (getg W t) (gidOffset (snd (calls W cs s1)))
           (snd (calls W cs s1)) /\
       storedAt W (getg W t) (gidOffset (snd (calls W cs s1))) = Some v) /\
    (gidOffset (snd (calls W cs s1)) < 0 ->
       GetGoID W t (snd (calls W cs s1)) = slowGid W t (snd (calls W cs s1)) /\
       GetGoID W t (snd (calls W cs s1)) = (Normal v, snd (calls W cs s1))).
Proof.
  rewrite packageInit_run.
  destruct (getGidOffset order W s0) as [[r| | |] s'] eqn:E; try discriminate.
  intros [= <-] Hread.
  destruct (keeps_calls W cs (with_gidOffset r s')) as [Hk _].
  set (s := snd (calls W cs (with_gidOffset r s'))) in *.
  change (gidOffset (with_gidOffset r s')) with r in Hk. clearbody s.
  apply getGidOffset_range in E. rewrite <- Hk in E. clear Hk.
  unfold GetGoID, FastGetGoIDAvailable, fastGid, bind, var_gidOffset, ret.
  destruct E as [E|[Hr Hm]].
  - destruct (Z.leb_spec 0 (gidOffset s)); [lia|]. rewrite slowGid_run.
    exists (slowGid_of W s t). split; [reflexivity|].
    split; [lia|]. intros _. now split.
  - destruct (Z.leb_spec 0 (gidOffset s)); [|lia].
    destruct (Hread _ Hr Hm) as [bits Hbits].
    exists (wrapInt bits). rewrite gidFromG_run. unfold storedAt.
    rewrite Hbits. split; [reflexivity|]. split; [|lia].
    intros _. now split.
Qed.

(** A use of [GetGoID_never_fails]: after initialisation in the runtime
    with the id at offset 152 and a call of [checkGidOffset], goroutine
    300 reads its id, 301, on the fast path. *)
Lemma GetGoID_never_fails_witness :
  let W := exampleWorld [152] 1024 in
  let s := snd (calls W [CallCheckGidOffset 152]
                  (snd (packageInit ascending W zeroState))) in
  exists v,
    fst (GetGoID W 300 s) = Normal v /\
    (0 <= gidOffset s ->
       GetGoID W 300 s = gidFromG W (getg W 300) (gidOffset s) s /\
       storedAt W (getg W 300) (gidOffset s) = Some v) /\
    (gidOffset s < 0 ->
       GetGoID W 300 s = slowGid W 300 s /\
       GetGoID W 300 s = (Normal v, s)).
Proof.
  cbv zeta.
  apply (GetGoID_never_fails ascending (exampleWorld [152] 1024) zeroState
           (snd (packageInit ascending (exampleWorld [152] 1024) zeroState))
           [CallCheckGidOffset 152] 300%nat).
  - vm_compute. reflexivity.
  - apply readableBlockb_spec. vm_compute. reflexivity.
Defined.

(** C6, as far as it holds.  Whatever the buffer holds, [slowGid] returns
    a value and never panics; it returns 0 whenever the text that
    [strings.TrimPrefix] leaves (the buffer without its leading prefix, or
    the whole buffer when it does not start with the prefix) does not
    begin with a 64-bit decimal number followed by a space. *)
Theorem slowGid_degrades prefix blob :
  (exists v, slowGid_parse prefix blob = Normal v) /\
  (forall W t s, exists v, slowGid W t s = (Normal v, s)) /\
  (strings.HasPrefix blob prefix = true ->
   noDecimalToken (strings.drop (String.length prefix) blob) ->
   slowGid_parse prefix blob = Normal 0) /\
  (strings.HasPrefix blob prefix = false ->
   noDecimalToken blob ->
   slowGid_parse prefix blob = Normal 0).
Proof.
  split; [rewrite slowGid_parse_value; eauto|].
  split; [intros W t s; rewrite slowGid_run; eauto|].
  rewrite slowGid_parse_value. unfold slowGid_value, strings.TrimPrefix.
  unfold noDecimalToken, firstToken, gidSize.
  split; intros -> H; cbv zeta in *;
    match goal with
    | |- context [0 <? ?i] => destruct (0 <? i); [|reflexivity]
    end;
    change (8 * 8) with 64;
    match goal with
    | |- context [strconv.ParseInt ?tok 64] =>
        destruct (strconv.ParseInt tok 64) as [v|] eqn:E; [|reflexivity];
        apply ParseInt_decimalInt64 in E; now destruct (H v)
    end.
Qed.

(** A use of [slowGid_degrades]: with the prefix changed to ["fake "], as
    the package's test does, the buffer of a real trace starts with the
    word "goroutine", which is no number. *)
Lemma slowGid_degrades_witness :
  slowGid_parse "fake " "goroutine 4707 [running]:" = Normal 0.
Proof.
  destruct (slowGid_degrades "fake " "goroutine 4707 [running]:")
    as (_ & _ & _ & H).
  apply H.
  - vm_compute. reflexivity.
  - unfold noDecimalToken. cbn [firstToken]. vm_compute firstToken.
    intros v Hv. apply ParseInt_decimalInt64 in Hv. vm_compute in Hv.
    discriminate.
Defined.

(** C6 as stated fails in its first part: [strings.TrimPrefix] does not
    test that the prefix is there.  This buffer holds "goroutine " nowhere,
    and [slowGid] returns 4711 for it. *)
Lemma slowGid_without_prefix :
  strings.Contains "4711 [running]:" "goroutine " = false /\
  slowGid_parse "goroutine " "4711 [running]:" = Normal 4711.
Proof.
  split; vm_compute; reflexivity.
Qed.

(** The id of a well-formed trace is read back exactly. *)
Example slowGid_roundtrip :
  slowGid_parse "goroutine " "goroutine 4711 [running]:" = Normal 4711.
Proof. vm_compute. reflexivity. Qed.

(** ** Instances for the finder *)

(** A use of [findGidOffset_empty_window]: the window of the package's own
    test, [findGidOffset(10, 9)]. *)
Lemma findGidOffset_empty_window_witness :
  let W := exampleWorld [152] 1024 in
  fst (findGidOffset W 3 10 9 zeroState) = Normal (-1) /\
  reads (snd (findGidOffset W 3 10 9 zeroState)) = reads zeroState /\
  snd (findGidOffset W 3 10 9 zeroState) = zeroState.
Proof.
  cbv zeta. apply findGidOffset_empty_window. lia.
Defined.

(** A use of [findGidOffset_contains_faults]: the control blocks of this
    runtime are 128 bytes long and hold no id; the scan of goroutine 3 runs
    past the end of its block, faults, and the call returns -1 with
    panic-on-fault as it was. *)
Lemma findGidOffset_contains_faults_witness :
  let W := exampleWorld [] 128 in
  let r := fst (findGidOffset W 3 0 256 zeroState) in
  let s' := snd (findGidOffset W 3 0 256 zeroState) in
  (r <> Panicking /\ r <> Crashed) /\
  (forall l a, reads s' = l ++ reads zeroState -> In a l -> ~ loaded W a ->
               r = Normal (-1)) /\
  (forall x, r = Normal x ->
             panicOnFault s' = panicOnFault zeroState /\
             exists l, s' = logged l zeroState).
Proof.
  cbv zeta.
  apply (findGidOffset_contains_faults (exampleWorld [] 128)
           (windowBudget 0 256) 3 0 256 zeroState).
  vm_compute. reflexivity.
Defined.

Example findGidOffset_fault_is_not_found :
  fst (findGidOffset (exampleWorld [] 128) 3 0 256 zeroState) = Normal (-1) /\
  ~ loaded (exampleWorld [] 128) (gBase + 1024 * 3 + 128).
Proof.
  split; [vm_compute; reflexivity|]. intros [bits H]. vm_compute in H. discriminate.
Qed.

(** * Further properties of the package *)

(** ** The receive loops *)

Section Receive.

(** X1.  The receive loop of [checkGidOffset] answers true exactly when
    every value received is true, and its answer does not depend on the
    order in which the probes' values arrive on the channel. *)
Theorem allReceived_order_free received received' :
  received ≡ₚ received' ->
  allReceived received = allReceived received' /\
  (allReceived received = true <-> Forall (fun v => v = true) received) /\
  (allReceived received = false <-> false ∈ received).
Proof.
  intros Hp. split; [|split].
  - rewrite !allReceived_forallb. clear -Hp.
    induction Hp as [|x l l' _ IH|x y l|l l' l'' _ IH1 _ IH2]; simpl.
    + reflexivity.
    + now rewrite IH.
    + now destruct x, y.
    + now rewrite IH1.
  - rewrite allReceived_forallb. clear. induction received as [|v l IH]; simpl.
    + split; [constructor|reflexivity].
    + rewrite Forall_cons, <- IH. destruct v; simpl.
      * tauto.
      * split; [discriminate|now intros [H _]].
  - rewrite allReceived_forallb. clear. induction received as [|v l IH]; simpl.
    + split; [discriminate|]. intros H. now apply elem_of_nil in H.
    + rewrite elem_of_cons, <- IH. destruct v; simpl.
      * split; [tauto|]. intros [H|H]; [discriminate|assumption].
      * split; [now left|reflexivity].
Qed.

(** A use of [allReceived_order_free]: one false among the received values,
    wherever it arrives. *)
Lemma allReceived_order_free_witness :
  allReceived [true; false; true] = allReceived [false; true; true] /\
  (allReceived [true; false; true] = true <->
   Forall (fun v => v = true) [true; false; true]) /\
  (allReceived [true; false; true] = false <-> false ∈ [true; false; true]).
Proof.
  apply allReceived_order_free. apply perm_swap.
Defined.

Lemma vote_comm m a b : vote (vote m a) b = vote (vote m b) a.
Proof.
  destruct (decide (a = b)) as [->|Hne]; [reflexivity|].
  apply map_eq. intros o. rewrite !vote_lookup.
  rewrite (bool_decide_eq_false_2 (b = a)) by congruence.
  rewrite (bool_decide_eq_false_2 (a = b)) by congruence.
  repeat case_bool_decide; subst; congruence.
Qed.

Lemma fold_vote_Permutation l l' :
  l ≡ₚ l' -> forall m, fold_left vote l m = fold_left vote l' m.
Proof.
  induction 1 as [|x l l' _ IH|x y l|l l' l'' _ IH1 _ IH2]; intros m; simpl.
  - reflexivity.
  - apply IH.
  - now rewrite vote_comm.
  - now rewrite IH1.
Qed.

Lemma countVotes_concat lists :
  countVotes lists = fold_left vote (concat lists) ∅.
Proof.
  unfold countVotes. generalize (∅ : gmap Z Z).
  induction lists as [|l ls IH]; intros m; simpl; [reflexivity|].
  now rewrite fold_left_app, IH.
Qed.

Lemma concat_Permutation {A} (ls ls' : list (list A)) :
  ls ≡ₚ ls' -> concat ls ≡ₚ concat ls'.
Proof.
  induction 1 as [|x l l' _ IH|x y l|l l' l'' _ IH1 _ IH2]; simpl.
  - reflexivity.
  - now rewrite IH.
  - rewrite !app_assoc. now rewrite (Permutation_app_comm y x).
  - now rewrite IH1.
Qed.

(** X2.  The map of votes does not depend on the order in which the
    voters' lists arrive on the channel, nor on the order of the offsets
    inside a list. *)
Theorem countVotes_order_free lists lists' :
  concat lists ≡ₚ concat lists' ->
  countVotes lists = countVotes lists'.
Proof.
  intros Hp. rewrite !countVotes_concat. now apply fold_vote_Permutation.
Qed.

(** A use of [countVotes_order_free]: two voters' lists, swapped. *)
Lemma countVotes_order_free_witness :
  countVotes [[152; 160]; [152]] = countVotes [[152]; [152; 160]].
Proof.
  apply countVotes_order_free. apply (concat_Permutation [[152; 160]; [152]]).
  apply perm_swap.
Defined.

Lemma fold_vote_count l o :
  forall (m : gmap Z Z) (c : nat),
  m !! o = tallyOf c ->
  Z.of_nat (c + length l) <= maxInt ->
  fold_left vote l m !! o = tallyOf (c + count_occ Z.eq_dec l o).
Proof.
  induction l as [|x l IH]; intros m c Hm Hb; simpl.
  - now rewrite Nat.add_0_r.
  - simpl in Hb. destruct (Z.eq_dec x o) as [->|Hne].
    + rewrite Nat.add_succ_r. apply (IH _ (S c)); [|lia].
      rewrite vote_lookup, bool_decide_eq_true_2 by reflexivity.
      rewrite Hm, tallyOf_default, wrapInt_id
        by (unfold isInt, minInt, maxInt in *; lia).
      simpl. f_equal. lia.
    + apply IH; [|lia].
      now rewrite vote_lookup, bool_decide_eq_false_2 by congruence.
Qed.

(** X3.  The map of votes holds, under each offset, the number of times
    the offset occurs on the received lists, and has no entry for an
    offset that occurs on none (as long as the count fits an [int]). *)
Theorem countVotes_occurrences lists o :
  Z.of_nat (length (concat lists)) <= maxInt ->
  countVotes lists !! o = tallyOf (count_occ Z.eq_dec (concat lists) o).
Proof.
  intros Hb. rewrite countVotes_concat.
  apply (fold_vote_count (concat lists) o ∅ 0); [apply lookup_empty|assumption].
Qed.

(** A use of [countVotes_occurrences]: offset 152 is on both lists. *)
Lemma countVotes_occurrences_witness :
  countVotes [[152; 160]; [152]] !! 152 = Some 2.
Proof.
  apply (countVotes_occurrences [[152; 160]; [152]] 152).
  unfold maxInt. simpl. lia.
Defined.

End Receive.

(** ** More about the candidate offset finder *)

Section FinderMore.

Variable W : World.

Lemma progression_window start n maxOffset :
  (forall k, (k < n)%nat -> start + 8 * Z.of_nat k < maxOffset) ->
  Forall (fun o => start <= o < maxOffset /\ (o - start) mod 8 = 0)
         (progression start n).
Proof.
  revert start. induction n as [|n IH]; intros start H; simpl; constructor.
  - specialize (H 0%nat ltac:(lia)). split; [lia|]. now rewrite Z.sub_diag.
  - eapply Forall_impl.
    + apply IH. intros k Hk. specialize (H (S k) ltac:(lia)). unfold gidSize. lia.
    + simpl. unfold gidSize. intros o [Ho Hm]. split; [lia|].
      replace (o - start) with (o - (start + 8) + 1 * 8) by lia.
      now rewrite Z.mod_add by lia.
Qed.

(** The loads of the loop, in a window the stride cannot overrun: one at
    each offset of the progression, in order, none at or above
    [maxOffset]. *)
Lemma loop_loads g currGid maxOffset (Hmax : maxOffset <= maxInt - 7) fuel :
  forall offset s r s',
  isInt offset ->
  findGidOffset_loop fuel W g currGid offset maxOffset s = (r, s') ->
  exists n,
    s' = logged (rev (map (addrOf g) (progression offset n))) s /\
    (forall k, (k < n)%nat -> offset + 8 * Z.of_nat k < maxOffset).
Proof.
  induction fuel as [|fuel IH]; intros offset s r s' Hi H; simpl in H.
  - injection H as <- <-. exists 0%nat. simpl. rewrite logged_nil.
    split; [reflexivity|]. lia.
  - destruct (Z.ltb_spec offset maxOffset) as [Hlt|Hge].
    2:{ injection H as <- <-. exists 0%nat. simpl. rewrite logged_nil.
        split; [reflexivity|]. lia. }
    assert (Hone : exists n,
               with_read (addrOf g offset) s =
               logged (rev (map (addrOf g) (progression offset n))) s /\
               (forall k, (k < n)%nat -> offset + 8 * Z.of_nat k < maxOffset)).
    { exists 1%nat. split; [reflexivity|]. intros k Hk.
      replace k with 0%nat by lia. lia. }
    unfold bind in H. rewrite gidFromG_run in H.
    destruct (mem W (addrOf g offset)) as [bits| |].
    + destruct (wrapInt bits =? currGid); [now injection H as <- <-|].
      destruct (stride_no_wrap offset maxOffset) as [Hw Hi']; [assumption..|].
      rewrite Hw in H. apply IH in H as (n & -> & Hn); [|assumption].
      exists (S n). simpl. rewrite logged_read. split; [reflexivity|].
      intros [|k] Hk; [lia|]. specialize (Hn k ltac:(lia)). lia.
    + now injection H as <- <-.
    + destruct (panicOnFault s); now injection H as <- <-.
Qed.

(** What the loop returns, in such a window: -1, or the first offset of
    the progression that holds [currGid], every offset before it loaded
    and holding something else. *)
Lemma loop_result_first g currGid maxOffset (Hmax : maxOffset <= maxInt - 7) fuel :
  forall offset s r s',
  isInt offset ->
  findGidOffset_loop fuel W g currGid offset maxOffset s = (Normal r, s') ->
  r = -1 \/
  exists k, 0 <= k /\ r = offset + 8 * k /\ r < maxOffset /\
    storedAt W g r = Some currGid /\
    forall j, 0 <= j < k ->
      exists v, storedAt W g (offset + 8 * j) = Some v /\ v <> currGid.
Proof.
  induction fuel as [|fuel IH]; intros offset s r s' Hi H; simpl in H.
  - discriminate.
  - destruct (Z.ltb_spec offset maxOffset) as [Hlt|Hge].
    2:{ injection H as <- <-. now left. }
    unfold bind in H. rewrite gidFromG_run in H.
    destruct (mem W (addrOf g offset)) as [bits| |] eqn:E.
    + destruct (Z.eqb_spec (wrapInt bits) currGid) as [Heq|Hne].
      * injection H as <- <-. right. exists 0.
        split; [lia|]. split; [lia|]. split; [assumption|]. split.
        -- unfold storedAt. now rewrite E, Heq.
        -- intros j Hj. lia.
      * destruct (stride_no_wrap offset maxOffset) as [Hw Hi']; [assumption..|].
        rewrite Hw in H.
        apply IH in H as [->|(k & Hk & -> & Hlt' & Hst & Hskip)];
          [now left| |assumption].
        right. exists (k + 1). split; [lia|]. split; [lia|].
        split; [lia|]. split; [assumption|].
        intros j Hj. destruct (Z.eq_dec j 0) as [->|Hj0].
        -- exists (wrapInt bits). split; [|assumption].
           unfold storedAt. rewrite Z.mul_0_r, Z.add_0_r. now rewrite E.
        -- destruct (Hskip (j - 1) ltac:(lia)) as (v & Hv & Hvne).
           exists v. split; [|assumption].
           now replace (offset + 8 * j) with (offset + 8 + 8 * (j - 1)) by lia.
    + discriminate.
    + destruct (panicOnFault s); discriminate.
Qed.

(** The result of [findGidOffset], read off the loop. *)
Lemma findGidOffset_fst t startOffset maxOffset s :
  fst (findGidOffset W t startOffset maxOffset s) =
  if negb (slowGid_of W s t =? 0) && negb (getg W t =? 0) then
    match fst (findGidOffset_loop (windowBudget startOffset maxOffset) W
                 (getg W t) (slowGid_of W s t) startOffset maxOffset
                 (with_panicOnFault true s)) with
    | Panicking => Normal (-1)
    | other => other
    end
  else Normal (-1).
Proof.
  unfold findGidOffset. rewrite findGidOffset_fuel_run.
  destruct (negb (slowGid_of W s t =? 0) && negb (getg W t =? 0)); [|reflexivity].
  now destruct (findGidOffset_loop _ _ _ _ _ _ _) as [[r| | |] s1].
Qed.

Lemma findGidOffset_match t startOffset maxOffset s k :
  isInt startOffset -> maxOffset <= maxInt - 7 -> 0 <= k ->
  firstMatchAt W s t startOffset maxOffset k ->
  fst (findGidOffset W t startOffset maxOffset s) = Normal (startOffset + 8 * k).
Proof.
  intros Hi Hmax Hk (Hc & Hg & Hlt & Hhit & Hskip).
  rewrite findGidOffset_fst.
  destruct (Z.eqb_spec (slowGid_of W s t) 0); [contradiction|].
  destruct (Z.eqb_spec (getg W t) 0); [contradiction|]. cbn [negb andb].
  pose proof (loop_first_match W (getg W t) (slowGid_of W s t) maxOffset Hmax
                (Z.to_nat k) (windowBudget startOffset maxOffset) startOffset
                (with_panicOnFault true s)) as H.
  rewrite Z2Nat.id in H by assumption.
  rewrite H; [reflexivity|unfold windowBudget; lia|assumption..].
Qed.

Lemma findGidOffset_found t startOffset maxOffset s r :
  isInt startOffset -> maxOffset <= maxInt - 7 ->
  fst (findGidOffset W t startOffset maxOffset s) = Normal r ->
  r = -1 \/
  exists k, 0 <= k /\ r = startOffset + 8 * k /\
            firstMatchAt W s t startOffset maxOffset k.
Proof.
  intros Hi Hmax. rewrite findGidOffset_fst. unfold firstMatchAt.
  destruct (Z.eqb_spec (slowGid_of W s t) 0) as [|Hc];
    [intros [= <-]; now left|].
  destruct (Z.eqb_spec (getg W t) 0) as [|Hg];
    [intros [= <-]; now left|]. cbn [negb andb].
  destruct (findGidOffset_loop _ _ _ _ _ _ _) as [[x| | |] s1] eqn:E;
    cbn [fst]; try discriminate.
  - intros [= <-].
    apply loop_result_first in E as [->|(k & Hk & -> & Hlt & Hst & Hskip)];
      [now left| |assumption..].
    right. exists k. repeat (split; [assumption || reflexivity|]). assumption.
  - intros [= <-]. now left.
Qed.

End FinderMore.

Section FinderExtras.

Variable W : World.

(** X4.  For a window that starts at a non-negative offset and that the
    stride cannot overrun, the result of [findGidOffset] is unambiguous:
    it always returns; a result other than -1 is the offset at which the
    scan stops with a match (so it lies in the window, holds the caller's
    non-zero slow-path id in the caller's own control block, and no
    earlier offset of the scan does); and -1 means that the scan stops
    with a match nowhere. *)
Theorem findGidOffset_exact t startOffset maxOffset s :
  0 <= startOffset <= maxInt -> maxOffset <= maxInt - 7 ->
  exists r,
    fst (findGidOffset W t startOffset maxOffset s) = Normal r /\
    (r <> -1 ->
     exists k, 0 <= k /\ r = startOffset + 8 * k /\
               firstMatchAt W s t startOffset maxOffset k) /\
    (r = -1 ->
     forall k, 0 <= k -> ~ firstMatchAt W s t startOffset maxOffset k).
Proof.
  intros H0 Hmax.
  assert (Hi : isInt startOffset) by (unfold isInt, minInt, maxInt in *; lia).
  destruct (findGidOffset_returns W t startOffset maxOffset s Hi Hmax)
    as (r & l & Heq & _).
  exists r. rewrite Heq. split; [reflexivity|]. split.
  - intros Hne.
    destruct (findGidOffset_found W t startOffset maxOffset s r Hi Hmax)
      as [->|H]; [now rewrite Heq|contradiction|assumption].
  - intros -> k Hk Hm.
    pose proof (findGidOffset_match W t startOffset maxOffset s k Hi Hmax Hk Hm) as H.
    rewrite Heq in H. injection H as H. lia.
Qed.

(** X5.  In a window the stride cannot overrun, [findGidOffset] changes
    nothing but the log of loads, and it loads only from the caller's own
    control block, at consecutive offsets of the scan from [startOffset]
    on, each once, in ascending order, all inside the window; it loads
    nothing at all when the slow path gave 0 or the control block
    reference is nil. *)
Theorem findGidOffset_loads t startOffset maxOffset s :
  isInt startOffset -> maxOffset <= maxInt - 7 ->
  exists r n,
    findGidOffset W t startOffset maxOffset s =
      (Normal r,
       logged (rev (map (addrOf (getg W t)) (progression startOffset n))) s) /\
    Forall (fun o => startOffset <= o < maxOffset /\ (o - startOffset) mod 8 = 0)
           (progression startOffset n) /\
    (slowGid_of W s t = 0 \/ getg W t = 0 -> n = 0%nat).
Proof.
  intros Hi Hmax.
  destruct (findGidOffset_returns W t startOffset maxOffset s Hi Hmax)
    as (r & l & Heq & _).
  exists r. revert Heq. unfold findGidOffset. rewrite findGidOffset_fuel_run.
  destruct (Z.eqb_spec (slowGid_of W s t) 0) as [Hc|Hc]; cbn [negb andb].
  { intros [= <- _]. exists 0%nat. simpl. rewrite logged_nil.
    split; [reflexivity|]. split; [constructor|reflexivity]. }
  destruct (Z.eqb_spec (getg W t) 0) as [Hg|Hg]; cbn [negb].
  { intros [= <- _]. exists 0%nat. simpl. rewrite logged_nil.
    split; [reflexivity|]. split; [constructor|reflexivity]. }
  destruct (findGidOffset_loop _ _ _ _ _ _ _) as [r1 s1] eqn:E.
  apply loop_loads in E as (n & -> & Hn); [|assumption..].
  assert (Hback : forall L, with_panicOnFault (panicOnFault s)
                    (logged L (with_panicOnFault true s)) = logged L s).
  { intros L. rewrite logged_flag, with_panicOnFault_twice.
    now rewrite with_panicOnFault_same. }
  destruct r1 as [x| | |]; try discriminate; intros [= <- _]; exists n;
    rewrite Hback; (split; [reflexivity|]);
    (split; [now apply progression_window|]); intros [?|?]; contradiction.
Qed.

(** X6.  A found offset is stable.  For a window that starts at a
    non-negative offset (where -1 can only mean "not found"): raising
    the upper bound of the window does not change a found offset, and a
    scan that starts at the found offset finds it again (the voters go on
    from the offset behind it). *)
Theorem findGidOffset_stable t startOffset maxOffset maxOffset' s r :
  0 <= startOffset -> maxOffset <= maxOffset' -> maxOffset' <= maxInt - 7 ->
  fst (findGidOffset W t startOffset maxOffset s) = Normal r -> r <> -1 ->
  fst (findGidOffset W t startOffset maxOffset' s) = Normal r /\
  fst (findGidOffset W t r maxOffset' s) = Normal r /\
  fst (findGidOffset W t r maxOffset s) = Normal r.
Proof.
  intros H0 Hle Hmax' Hr Hne.
  destruct (Z.lt_ge_cases startOffset maxOffset) as [Hlt|Hge].
  2:{ rewrite findGidOffset_fst in Hr.
      destruct (negb _ && negb _); [|now injection Hr as <-].
      unfold windowBudget in Hr.
      rewrite findGidOffset_loop_empty in Hr by assumption.
      now injection Hr as <-. }
  assert (Hi : isInt startOffset) by (unfold isInt, minInt, maxInt in *; lia).
  destruct (findGidOffset_found W t startOffset maxOffset s r Hi ltac:(lia) Hr)
    as [->|(k & Hk & -> & Hc & Hg & Hlt' & Hst & Hskip)]; [contradiction|].
  assert (Hi' : isInt (startOffset + 8 * k))
    by (unfold isInt, minInt, maxInt in *; lia).
  split; [|split].
  - apply findGidOffset_match; [assumption..|].
    repeat (split; [assumption || lia|]). assumption.
  - replace (startOffset + 8 * k) with (startOffset + 8 * k + 8 * 0) at 2 by lia.
    apply findGidOffset_match; [assumption|assumption|lia|].
    split; [assumption|]. split; [assumption|]. split; [lia|].
    split; [now rewrite Z.mul_0_r, Z.add_0_r|]. intros j Hj. lia.
  - replace (startOffset + 8 * k) with (startOffset + 8 * k + 8 * 0) at 2 by lia.
    apply findGidOffset_match; [assumption|lia|lia|].
    split; [assumption|]. split; [assumption|]. split; [lia|].
    split; [now rewrite Z.mul_0_r, Z.add_0_r|]. intros j Hj. lia.
Qed.

End FinderExtras.

(** A use of [findGidOffset_exact]: the window of the package, scanned by
    goroutine 3. *)
Lemma findGidOffset_exact_witness :
  let W0 := exampleWorld [152] 1024 in
  exists r,
    fst (findGidOffset W0 3 0 256 zeroState) = Normal r /\
    (r <> -1 ->
     exists k, 0 <= k /\ r = 0 + 8 * k /\ firstMatchAt W0 zeroState 3 0 256 k) /\
    (r = -1 -> forall k, 0 <= k -> ~ firstMatchAt W0 zeroState 3 0 256 k).
Proof.
  cbv zeta. apply findGidOffset_exact; unfold maxInt; lia.
Defined.

(** A use of [findGidOffset_loads]: the window of the package. *)
Lemma findGidOffset_loads_witness :
  let W0 := exampleWorld [152] 1024 in
  exists r n,
    findGidOffset W0 3 0 256 zeroState =
      (Normal r,
       logged (rev (map (addrOf (getg W0 3)) (progression 0 n))) zeroState) /\
    Forall (fun o => 0 <= o < 256 /\ (o - 0) mod 8 = 0) (progression 0 n) /\
    (slowGid_of W0 zeroState 3 = 0 \/ getg W0 3 = 0 -> n = 0%nat).
Proof.
  cbv zeta. apply findGidOffset_loads; unfold isInt, minInt, maxInt; lia.
Defined.

(** A use of [findGidOffset_stable]: the id found at 152 in a window that
    ends at 160. *)
Lemma findGidOffset_stable_witness :
  let W0 := exampleWorld [152] 1024 in
  fst (findGidOffset W0 3 0 256 zeroState) = Normal 152 /\
  fst (findGidOffset W0 3 152 256 zeroState) = Normal 152 /\
  fst (findGidOffset W0 3 152 160 zeroState) = Normal 152.
Proof.
  cbv zeta.
  apply (findGidOffset_stable (exampleWorld [152] 1024) 3 0 160 256 zeroState 152).
  - lia.
  - lia.
  - unfold maxInt. lia.
  - vm_compute. reflexivity.
  - lia.
Defined.


(** ** More about the offset validator *)

Section ValidatorMore.

Variable W : World.

Lemma logged_logged l1 l2 a b s :
  logged l2 (with_nextTid a (logged l1 (with_nextTid b s))) =
  logged (l2 ++ l1) (with_nextTid a s).
Proof. unfold logged, with_nextTid; simpl. now rewrite app_assoc. Qed.

(** A probe loads at most once, from its own control block. *)
Lemma probe_go_loads offset s :
  exists l,
    runtime.go (checkGidOffset_probe W offset) s =
    (if probeFaults W s offset (nextTid s) then Crashed
     else Normal (probeSucceeds W s offset (nextTid s)),
     logged l (with_nextTid (S (nextTid s)) s)) /\
    (l = [] \/ l = [addrOf (getg W (nextTid s)) offset]).
Proof.
  unfold runtime.go. rewrite probe_run. unfold probeFaults, probeSucceeds, storedAt.
  change (slowGid_of W (with_panicOnFault false (with_nextTid (S (nextTid s)) s)))
    with (slowGid_of W s).
  destruct (negb (slowGid_of W s (nextTid s) =? 0) && negb (getg W (nextTid s) =? 0)).
  2:{ exists []. simpl. rewrite logged_nil. split; [reflexivity|now left]. }
  exists [addrOf (getg W (nextTid s)) offset].
  split; [|now right].
  destruct (mem W (addrOf (getg W (nextTid s)) offset)); reflexivity.
Qed.

Lemma spawn_probes_run offset n :
  forall s,
  existsb (probeFaults W s offset) (started s n) = false ->
  exists l,
    spawnAll n (checkGidOffset_probe W offset) s =
      (Normal (map (probeSucceeds W s offset) (started s n)),
       logged l (with_nextTid (n + nextTid s) s)) /\
    (length l <= n)%nat /\
    Forall (fun a => exists t, t ∈ started s n /\ a = addrOf (getg W t) offset) l.
Proof.
  unfold started.
  induction n as [|n IH]; intros s Hf.
  { exists []. simpl. unfold ret. rewrite logged_nil.
    split; [now destruct s|]. split; [lia|constructor]. }
  simpl in Hf. apply orb_false_elim in Hf as [Hf1 Hf2].
  cbn [spawnAll]. unfold bind at 1.
  destruct (probe_go_loads offset s) as (l1 & -> & Hl1). rewrite Hf1.
  unfold bind at 1.
  destruct (IH (logged l1 (with_nextTid (S (nextTid s)) s))) as (l2 & -> & Hlen & Hall).
  { exact Hf2. }
  exists (l2 ++ l1). unfold ret.
  change (nextTid (logged l1 (with_nextTid (S (nextTid s)) s))) with (S (nextTid s)).
  rewrite logged_logged. rewrite Nat.add_succ_r. split; [reflexivity|]. split.
  - rewrite length_app. destruct Hl1 as [->| ->]; simpl; lia.
  - apply Forall_app. split.
    + eapply Forall_impl; [exact Hall|]. simpl. intros a (t & Ht & ->).
      exists t. split; [|reflexivity].
      change (seq (nextTid s) (S n)) with (nextTid s :: seq (S (nextTid s)) n).
      now apply list_elem_of_further.
    + destruct Hl1 as [->| ->]; constructor; [|constructor].
      exists (nextTid s). split; [|reflexivity]. simpl. apply list_elem_of_here.
Qed.

(** [checkGidOffset] when no probe faults at a non-nil address. *)
Lemma checkGidOffset_run offset s :
  existsb (probeFaults W s offset) (started s (Z.to_nat checkCount)) = false ->
  exists l,
    checkGidOffset W offset s =
      (Normal (forallb (probeSucceeds W s offset) (started s (Z.to_nat checkCount))),
       logged l (with_nextTid (Z.to_nat checkCount + nextTid s) s)) /\
    (length l <= Z.to_nat checkCount)%nat /\
    Forall (fun a => exists t, t ∈ started s (Z.to_nat checkCount) /\
                               a = addrOf (getg W t) offset) l.
Proof.
  intros Hf. unfold checkGidOffset, bind.
  destruct (spawn_probes_run offset (Z.to_nat checkCount) s Hf) as (l & -> & Hl).
  exists l. split; [|exact Hl]. unfold ret. f_equal. f_equal.
  rewrite allReceived_forallb. clear.
  induction (started s (Z.to_nat checkCount)) as [|t ts IH]; [reflexivity|].
  cbn [map forallb]. now rewrite IH.
Qed.

(** X7.  When the load of no probe faults at a non-nil address,
    [checkGidOffset] returns, and its answer is true exactly when each of
    the ten goroutines it starts succeeds (a fault at the nil page counts
    as a failure of that probe).  It starts exactly ten goroutines, leaves
    the package variables and the caller's panic-on-fault mode as they
    were, and makes at most one load per probe, at the probed offset of
    the probe's own control block. *)
Theorem checkGidOffset_verdict offset s :
  (forall t, t ∈ started s 10 -> probeFaults W s offset t = false) ->
  exists ok l,
    checkGidOffset W offset s =
      (Normal ok, logged l (with_nextTid (10 + nextTid s) s)) /\
    (ok = true <-> forall t, t ∈ started s 10 -> probeSucceeds W s offset t = true) /\
    (length l <= 10)%nat /\
    Forall (fun a => exists t, t ∈ started s 10 /\ a = addrOf (getg W t) offset) l.
Proof.
  intros Hf.
  destruct (checkGidOffset_run offset s) as (l & Heq & Hl).
  { change (Z.to_nat checkCount) with 10%nat.
    induction (started s 10) as [|t ts IH]; [reflexivity|]. simpl.
    rewrite (Hf t) by apply list_elem_of_here. simpl.
    apply IH. intros t' Ht'. apply Hf. now apply list_elem_of_further. }
  change (Z.to_nat checkCount) with 10%nat in *.
  exists (forallb (probeSucceeds W s offset) (started s 10)), l.
  split; [exact Heq|]. split; [|exact Hl].
  rewrite forallb_forall. split; intros H t Ht; apply H.
  - now apply list_elem_of_In.
  - now apply list_elem_of_In.
Qed.

End ValidatorMore.

(** A use of [checkGidOffset_verdict]: offset 152 in the runtime that keeps
    the id there. *)
Lemma checkGidOffset_verdict_witness :
  let W := exampleWorld [152] 1024 in
  exists ok l,
    checkGidOffset W 152 zeroState =
      (Normal ok, logged l (with_nextTid (10 + nextTid zeroState) zeroState)) /\
    (ok = true <->
     forall t, t ∈ started zeroState 10 -> probeSucceeds W zeroState 152 t = true) /\
    (length l <= 10)%nat /\
    Forall (fun a => exists t, t ∈ started zeroState 10 /\
                               a = addrOf (getg W t) 152) l.
Proof.
  cbv zeta.
  refine (checkGidOffset_verdict (exampleWorld [152] 1024) 152 zeroState _).
  apply (proj1 (Forall_forall
    (fun t => probeFaults (exampleWorld [152] 1024) zeroState 152 t = false)
    (started zeroState 10))).
  cbv [started zeroState nextTid seq].
  repeat (constructor; [vm_compute; reflexivity|]). constructor.
Defined.

(** ** More about the slow path *)

Section SlowGidMore.

Lemma append_nil (x : string) : (EmptyString ++ x)%string = x.
Proof. reflexivity. Qed.

Lemma append_cons c (a x : string) :
  (String c a ++ x)%string = String c (a ++ x).
Proof. reflexivity. Qed.

Lemma append_nil_r (a : string) : (a ++ EmptyString)%string = a.
Proof.
  induction a as [|c a IH]; [reflexivity|]. now rewrite append_cons, IH.
Qed.

Lemma HasPrefix_app p x : strings.HasPrefix (p ++ x) p = true.
Proof.
  induction p as [|c p IH]; [now destruct x|].
  rewrite append_cons. cbn [strings.HasPrefix].
  now rewrite Ascii.eqb_refl.
Qed.

Lemma drop_app p x : strings.drop (String.length p) (p ++ x) = x.
Proof.
  induction p as [|c p IH]; [reflexivity|].
  rewrite append_cons. cbn [String.length strings.drop]. assumption.
Qed.

Lemma take_app a b n :
  (String.length a <= n)%nat ->
  strings.take n (a ++ b) = (a ++ strings.take (n - String.length a) b)%string.
Proof.
  revert n. induction a as [|c a IH]; intros n Hn; cbn [String.length] in *.
  - now rewrite !append_nil, Nat.sub_0_r.
  - destruct n as [|n]; [lia|]. rewrite !append_cons. cbn [strings.take].
    rewrite IH by lia. reflexivity.
Qed.

Lemma take_app_short a b n :
  (n <= String.length a)%nat -> strings.take n (a ++ b) = strings.take n a.
Proof.
  revert n. induction a as [|c a IH]; intros n Hn; cbn [String.length] in *.
  - now replace n with 0%nat by lia.
  - destruct n as [|n]; [reflexivity|]. rewrite append_cons. cbn [strings.take].
    now rewrite IH by lia.
Qed.

Lemma take_all a n : (String.length a <= n)%nat -> strings.take n a = a.
Proof.
  revert n. induction a as [|c a IH]; intros n Hn; simpl in *.
  - now destruct n.
  - destruct n as [|n]; [lia|]. simpl. now rewrite IH by lia.
Qed.

Lemma take_length a n :
  (n <= String.length a)%nat -> String.length (strings.take n a) = n.
Proof.
  revert n. induction a as [|c a IH]; intros n Hn; simpl in *.
  - now replace n with 0%nat by lia.
  - destruct n as [|n]; [reflexivity|]. simpl. now rewrite IH by lia.
Qed.

Lemma take_allDigits a n : allDigits a = true -> allDigits (strings.take n a) = true.
Proof.
  revert n. induction a as [|c a IH]; intros n H; simpl in *.
  - now destruct n.
  - destruct n as [|n]; [reflexivity|]. simpl.
    apply andb_prop in H as [-> H]. now apply IH.
Qed.

Lemma isDigit_not_space c : isDigit c = true -> Ascii.eqb c " " = false.
Proof.
  destruct (Ascii.eqb_spec c " ") as [->|]; [discriminate|reflexivity].
Qed.

(** The first space after a run of digits. *)
Lemma IndexByte_digits token r :
  allDigits token = true ->
  strings.IndexByte (token ++ String " " r) " " = Z.of_nat (String.length token).
Proof.
  induction token as [|c token IH]; intros H.
  - reflexivity.
  - cbn [allDigits] in H. apply andb_prop in H as [Hc H].
    rewrite append_cons. cbn [strings.IndexByte].
    rewrite (isDigit_not_space c Hc).
    rewrite IH by assumption. cbv zeta.
    destruct (Z.ltb_spec (Z.of_nat (String.length token)) 0); [lia|].
    cbn [String.length]. lia.
Qed.

(** No space in a run of digits. *)
Lemma IndexByte_allDigits token :
  allDigits token = true -> strings.IndexByte token " " = -1.
Proof.
  induction token as [|c token IH]; intros H; [reflexivity|].
  cbn [allDigits] in H. apply andb_prop in H as [Hc H].
  cbn [strings.IndexByte]. rewrite (isDigit_not_space c Hc), IH by assumption.
  reflexivity.
Qed.

Lemma slowGid_value_token prefix token r :
  token <> EmptyString -> allDigits token = true ->
  decimalValue 0 token <= maxInt ->
  slowGid_value prefix (prefix ++ token ++ String " " r) = decimalValue 0 token.
Proof.
  intros Hne Hall Hmax. unfold slowGid_value, strings.TrimPrefix.
  rewrite HasPrefix_app, drop_app. cbv zeta.
  rewrite IndexByte_digits by assumption.
  destruct (Z.ltb_spec 0 (Z.of_nat (String.length token))) as [_|H0].
  2:{ destruct token; [contradiction|]. simpl in H0. lia. }
  rewrite Nat2Z.id, take_app by lia. rewrite Nat.sub_diag.
  cbn [strings.take]. rewrite append_nil_r. change (gidSize * 8) with 64.
  assert (Hp : strconv.ParseInt token 64 = Some (decimalValue 0 token)).
  { apply ParseInt_decimalInt64. apply decimal_plain; try assumption; [reflexivity|].
    pose proof (decimalValue_nonneg token 0 ltac:(lia) Hall).
    unfold isInt, minInt. lia. }
  now rewrite Hp.
Qed.

Lemma slowGid_value_cut prefix digits :
  allDigits digits = true -> slowGid_value prefix (prefix ++ digits) = 0.
Proof.
  intros Hall. unfold slowGid_value, strings.TrimPrefix.
  rewrite HasPrefix_app, drop_app. cbv zeta.
  now rewrite IndexByte_allDigits.
Qed.

End SlowGidMore.

(** X8.  The slow path reads the id back.  When the stack trace of the
    goroutine is [goroutinePrefix], then a non-empty run of decimal digits
    whose value fits [int64], then a space (and anything after it), and
    the prefix and the digits end inside the 32-byte buffer, [slowGid]
    returns the value of the digits and changes nothing. *)
Theorem slowGid_reads_the_id W t s token rest :
  stackTrace W t = (goroutinePrefix s ++ token ++ String " " rest)%string ->
  token <> EmptyString -> allDigits token = true ->
  decimalValue 0 token <= maxInt ->
  (String.length (goroutinePrefix s) + String.length token < 32)%nat ->
  slowGid W t s = (Normal (decimalValue 0 token), s).
Proof.
  intros Htrace Hne Hall Hmax Hlen.
  rewrite slowGid_run. f_equal. f_equal.
  unfold slowGid_of, runtime.Stack. rewrite Htrace.
  rewrite take_app by lia. rewrite take_app by lia.
  destruct (32 - String.length (goroutinePrefix s) - String.length token)%nat
    as [|n] eqn:E; [lia|].
  cbn [strings.take]. now apply slowGid_value_token.
Qed.

(** X9.  An id that the buffer cuts short reads as 0.  When the stack
    trace is [goroutinePrefix] followed by a run of decimal digits, and
    the prefix ends inside the 32-byte buffer but the digits do not,
    [slowGid] sees no space after the number and returns 0. *)
Theorem slowGid_cut_short W t s token rest :
  stackTrace W t = (goroutinePrefix s ++ token ++ rest)%string ->
  allDigits token = true ->
  (String.length (goroutinePrefix s) <= 32)%nat ->
  (32 <= String.length (goroutinePrefix s) + String.length token)%nat ->
  slowGid W t s = (Normal 0, s).
Proof.
  intros Htrace Hall Hp Hlen.
  rewrite slowGid_run. f_equal. f_equal.
  unfold slowGid_of, runtime.Stack. rewrite Htrace.
  rewrite take_app by lia.
  rewrite take_app_short by lia.
  apply slowGid_value_cut. now apply take_allDigits.
Qed.

(** A use of [slowGid_reads_the_id]: goroutine 4710 of the example runtime,
    whose trace starts with "goroutine 4711 [running]:". *)
Lemma slowGid_reads_the_id_witness :
  slowGid (exampleWorld [152] 1024) 4710 zeroState = (Normal 4711, zeroState).
Proof.
  apply (slowGid_reads_the_id (exampleWorld [152] 1024) 4710 zeroState "4711"
           ("[running]:" ++ String "010"%char "main.main()")).
  - vm_compute. reflexivity.
  - discriminate.
  - reflexivity.
  - unfold maxInt. vm_compute. discriminate.
  - vm_compute. lia.
Defined.

(** A use of [slowGid_cut_short]: a trace with a number of 25 digits. *)
Lemma slowGid_cut_short_witness :
  slowGid (mkWorld (fun _ => "goroutine 1234567890123456789012345 [running]:")
                   (fun _ => 4096) (fun _ => Loaded 0))
          0 zeroState = (Normal 0, zeroState).
Proof.
  apply (slowGid_cut_short _ 0%nat zeroState "1234567890123456789012345"
           " [running]:").
  - reflexivity.
  - reflexivity.
  - vm_compute. lia.
  - vm_compute. lia.
Defined.

(** ** The list of a voter *)

Section VoterList.

Variable W : World.

Lemma checkGidOffset_Normal offset s ok s' :
  checkGidOffset W offset s = (Normal ok, s') ->
  ok = forallb (probeSucceeds W s offset) (started s (Z.to_nat checkCount)) /\
  exists l, s' = logged l (with_nextTid (Z.to_nat checkCount + nextTid s) s).
Proof.
  intros H. pose proof (checkGidOffset_batch W offset s) as Hb.
  rewrite H in Hb. cbn [fst] in Hb.
  destruct (existsb _ _) eqn:Ex; [discriminate|].
  destruct (checkGidOffset_run W offset s Ex) as (l & Hrun & _).
  rewrite Hrun in H. injection H as <- <-. split; [reflexivity|eauto].
Qed.

(** What a round of the voter's loop adds to the list. *)
Lemma voter_loop_list t fuel :
  forall offset local s l s',
  0 <= offset -> offset mod 8 = 0 ->
  voter_loop fuel W t offset local s = (Normal l, s') ->
  exists added k lg,
    l = local ++ added /\
    s' = logged lg (with_nextTid (10 * k + nextTid s) s) /\
    (length added <= k)%nat /\
    StronglySorted Z.lt added /\
    Forall (fun o =>
              (offset <= o < gSize /\ o mod 8 = 0) /\
              slowGid_of W s t <> 0 /\ getg W t <> 0 /\
              storedAt W (getg W t) o = Some (slowGid_of W s t) /\
              exists n, (nextTid s <= n /\ n + 10 <= 10 * k + nextTid s)%nat /\
                        forall p, p ∈ seq n 10 -> probeSucceeds W s o p = true)
           added.
Proof.
  induction fuel as [|fuel IH]; intros offset local s l s' H0 H8 H;
    cbn [voter_loop] in H; [discriminate|].
  assert (Hstop : forall x : State, (Normal local, s) = (Normal l, x) -> x = s' ->
            exists added k lg,
              l = local ++ added /\
              s' = logged lg (with_nextTid (10 * k + nextTid s) s) /\
              (length added <= k)%nat /\ StronglySorted Z.lt added /\
              Forall (fun o =>
                (offset <= o < gSize /\ o mod 8 = 0) /\
                slowGid_of W s t <> 0 /\ getg W t <> 0 /\
                storedAt W (getg W t) o = Some (slowGid_of W s t) /\
                exists n, (nextTid s <= n /\ n + 10 <= 10 * k + nextTid s)%nat /\
                  forall p, p ∈ seq n 10 -> probeSucceeds W s o p = true) added).
  { intros x Hx <-. injection Hx as <- <-. exists [], 0%nat, [].
    rewrite app_nil_r, logged_nil. split; [reflexivity|].
    split; [now destruct s|]. split; [simpl; lia|]. split; constructor. }
  destruct (Z.ltb_spec offset gSize) as [Hlt|Hge].
  2:{ unfold ret in H. now apply (Hstop s'). }
  unfold bind at 1 in H.
  destruct (findGidOffset_returns W t offset gSize s) as (r & lg & Hrun & Hr).
  { unfold isInt, minInt, maxInt, gSize in *. lia. }
  { apply gSize_in_range. }
  pose proof (findGidOffset_found W t offset gSize s r) as Hfound.
  rewrite Hrun in H, Hfound. cbn [fst] in Hfound.
  destruct (Z.eqb_spec r (-1)) as [->|Hne].
  { unfold ret in H. injection H as <- <-. exists [], 0%nat, lg.
    rewrite app_nil_r. split; [reflexivity|].
    split; [now destruct s|]. split; [simpl; lia|]. split; constructor. }
  destruct Hr as [Hr|[Hr1 Hr2]]; [contradiction|].
  destruct Hfound as [Hf|(j & Hj & Hrj & Hc & Hg & _ & Hst & _)];
    [unfold isInt, minInt, maxInt, gSize in *; lia|apply gSize_in_range
    |reflexivity|contradiction|].
  rewrite <- Hrj in Hst.
  unfold bind at 1 in H.
  destruct (checkGidOffset W r (logged lg s)) as [[ok| | |] s2] eqn:Ec;
    try discriminate.
  apply checkGidOffset_Normal in Ec as [Hok (l2 & Hs2)].
  change (Z.to_nat checkCount) with 10%nat in *.
  change (nextTid (logged lg s)) with (nextTid s) in Hs2.
  assert (Hs2' : s2 = logged (l2 ++ lg) (with_nextTid (10 + nextTid s) s)).
  { rewrite Hs2. unfold logged, with_nextTid. simpl. now rewrite app_assoc. }
  clear Hs2.
  assert (Hw : wrapInt (r + gidSize) = r + 8).
  { apply wrapInt_id. unfold isInt, minInt, maxInt, gidSize, gSize in *. lia. }
  rewrite Hw in H.
  assert (Hr8 : r mod 8 = 0).
  { replace r with ((r - offset) + offset) by lia.
    rewrite Z.add_mod, Hr2, H8 by lia. reflexivity. }
  apply IH in H as (added & k & lg3 & Hl & Hs' & Hlen & Hsorted & Hall);
    [|lia|replace (r + 8) with (r + 1 * 8) by lia; now rewrite Z.mod_add by lia].
  subst s2.
  change (nextTid (logged (l2 ++ lg) (with_nextTid (10 + nextTid s) s)))
    with (10 + nextTid s)%nat in *.
  change (slowGid_of W (logged (l2 ++ lg) (with_nextTid (10 + nextTid s) s)))
    with (slowGid_of W s) in Hall.
  assert (Hall' : Forall (fun o =>
            (r + 8 <= o < gSize /\ o mod 8 = 0) /\
            slowGid_of W s t <> 0 /\ getg W t <> 0 /\
            storedAt W (getg W t) o = Some (slowGid_of W s t) /\
            exists n, (nextTid s <= n /\ n + 10 <= 10 * S k + nextTid s)%nat /\
              forall p, p ∈ seq n 10 -> probeSucceeds W s o p = true) added).
  { eapply Forall_impl; [exact Hall|]. cbv beta.
    intros o (Ho & Hoc & Hog & Host & n & Hn & Hp).
    split; [assumption|]. split; [assumption|]. split; [assumption|].
    split; [assumption|]. exists n. split; [lia|]. exact Hp. }
  clear Hall.
  assert (Hs'' : s' = logged (lg3 ++ l2 ++ lg)
                        (with_nextTid (10 * S k + nextTid s) s)).
  { rewrite Hs'. unfold logged, with_nextTid. simpl. rewrite !app_assoc.
    f_equal. lia. }
  clear Hs'.
  assert (Hweak : Forall (fun o =>
            (offset <= o < gSize /\ o mod 8 = 0) /\
            slowGid_of W s t <> 0 /\ getg W t <> 0 /\
            storedAt W (getg W t) o = Some (slowGid_of W s t) /\
            exists n, (nextTid s <= n /\ n + 10 <= 10 * S k + nextTid s)%nat /\
              forall p, p ∈ seq n 10 -> probeSucceeds W s o p = true) added).
  { eapply Forall_impl; [exact Hall'|]. cbv beta.
    intros o (Ho & Hrest). split; [lia|exact Hrest]. }
  destruct ok.
  - exists (r :: added), (S k), (lg3 ++ l2 ++ lg).
    split; [rewrite Hl, <- app_assoc; reflexivity|].
    split; [assumption|]. split; [simpl; lia|]. split.
    + constructor; [assumption|].
      eapply Forall_impl; [exact Hall'|]. cbv beta. intros o Ho. lia.
    + constructor; [|assumption].
      split; [lia|]. split; [assumption|]. split; [assumption|].
      split; [assumption|]. exists (nextTid s). split; [lia|].
      intros p Hp. symmetry in Hok. rewrite forallb_forall in Hok.
      apply Hok. apply list_elem_of_In. exact Hp.
  - exists added, (S k), (lg3 ++ l2 ++ lg).
    split; [assumption|]. split; [assumption|]. split; [lia|].
    split; assumption.
Qed.

End VoterList.

(** X10.  The list a voter sends.  It is strictly increasing.  Each offset
    on it is an aligned offset of the window at which the voter's own
    control block holds the voter's slow-path id (which is not 0), and at
    which ten goroutines, started one after the other by the voter, all
    succeeded as probes.  The voter starts its goroutines in rounds of ten,
    at least one round for each offset of the list, and leaves the package
    variables and its caller's panic-on-fault mode as they were. *)
Theorem voter_list W t s l s' :
  voter W t s = (Normal l, s') ->
  StronglySorted Z.lt l /\
  Forall (fun o =>
            (0 <= o < gSize /\ o mod 8 = 0) /\
            slowGid_of W s t <> 0 /\ getg W t <> 0 /\
            storedAt W (getg W t) o = Some (slowGid_of W s t) /\
            exists n, (nextTid s <= n /\ n + 10 <= nextTid s')%nat /\
                      forall p, p ∈ seq n 10 -> probeSucceeds W s o p = true)
         l /\
  exists k lg,
    (length l <= k)%nat /\
    s' = logged lg (with_nextTid (10 * k + nextTid s) s).
Proof.
  intros H. unfold voter in H.
  apply voter_loop_list in H as (added & k & lg & Hl & Hs' & Hlen & Hsorted & Hall);
    [|lia|reflexivity].
  cbn [app] in Hl. subst l. split; [assumption|]. split.
  - eapply Forall_impl; [exact Hall|]. cbv beta.
    intros o (Ho & Hc & Hg & Hst & n & Hn & Hp).
    split; [assumption|]. split; [assumption|]. split; [assumption|].
    split; [assumption|]. exists n. split; [|exact Hp].
    rewrite Hs'. exact Hn.
  - exists k, lg. split; assumption.
Qed.

(** A use of [voter_list]: a voter in the runtime that keeps the id at the
    offsets 152 and 160. *)
Lemma voter_list_witness :
  let W := exampleWorld [152; 160] 1024 in
  let s' := snd (voter W 1 (with_nextTid 2 zeroState)) in
  StronglySorted Z.lt [152; 160] /\
  Forall (fun o =>
            (0 <= o < gSize /\ o mod 8 = 0) /\
            slowGid_of W (with_nextTid 2 zeroState) 1 <> 0 /\ getg W 1 <> 0 /\
            storedAt W (getg W 1) o =
              Some (slowGid_of W (with_nextTid 2 zeroState) 1) /\
            exists n, (nextTid (with_nextTid 2 zeroState) <= n /\
                       n + 10 <= nextTid s')%nat /\
                      forall p, p ∈ seq n 10 ->
                        probeSucceeds W (with_nextTid 2 zeroState) o p = true)
         [152; 160] /\
  exists k lg,
    (length [152; 160] <= k)%nat /\
    s' = logged lg (with_nextTid (10 * k + nextTid (with_nextTid 2 zeroState))
                      (with_nextTid 2 zeroState)).
Proof.
  cbv zeta. apply voter_list. vm_compute. reflexivity.
Defined.

(** ** Outcomes: crashes, panics and termination *)

Section Outcomes.

Variable W : World.

Lemma probeFaults_prefix s s' offset p :
  goroutinePrefix s' = goroutinePrefix s ->
  probeFaults W s' offset p = probeFaults W s offset p.
Proof. unfold probeFaults, slowGid_of. now intros ->. Qed.

Lemma probeFaults_started offset s n :
  existsb (probeFaults W s offset) (started s n) = true <->
  exists p, p ∈ started s n /\ probeFaults W s offset p = true.
Proof.
  rewrite existsb_exists. split; intros (p & Hin & Hp); exists p;
    (split; [now apply list_elem_of_In|assumption]).
Qed.

(** A voter ends with its list, or with the process, and then because the
    load of a probe faulted. *)
Lemma voter_loop_outcome t fuel :
  forall offset local s res s',
  0 <= offset -> (Z.to_nat (gSize - offset) < fuel)%nat ->
  voter_loop fuel W t offset local s = (res, s') ->
  (exists l, res = Normal l) \/
  (res = Crashed /\
   exists o p, 0 <= o < gSize /\ probeFaults W s o p = true).
Proof.
  induction fuel as [|fuel IH]; intros offset local s res s' H0 Hf H; [lia|].
  cbn [voter_loop] in H.
  destruct (Z.ltb_spec offset gSize) as [Hlt|Hge];
    [|injection H as <- <-; left; eauto].
  unfold bind at 1 in H.
  destruct (findGidOffset_returns W t offset gSize s) as (r & lg & Hrun & Hr).
  { unfold isInt, minInt, maxInt, gSize in *. lia. }
  { apply gSize_in_range. }
  rewrite Hrun in H.
  destruct (Z.eqb_spec r (-1)) as [->|Hne]; [injection H as <- <-; left; eauto|].
  destruct Hr as [Hr|[Hr1 Hr2]]; [contradiction|].
  unfold bind at 1 in H.
  pose proof (checkGidOffset_batch W r (logged lg s)) as Hb.
  destruct (keeps_checkGidOffset W r (logged lg s)) as [_ Hpre].
  destruct (checkGidOffset W r (logged lg s)) as [res2 s2].
  cbn [fst snd] in Hb, Hpre.
  destruct (existsb _ _) eqn:Ex; subst res2.
  - injection H as <- <-. right. split; [reflexivity|].
    apply probeFaults_started in Ex as (p & _ & Hp).
    exists r, p. split; [lia|]. exact Hp.
  - rewrite wrapInt_id in H
      by (unfold isInt, minInt, maxInt, gidSize, gSize in *; lia).
    apply IH in H as [H|(H & o & p & Ho & Hp)]; [now left| |unfold gidSize; lia..].
    right. split; [assumption|]. exists o, p. split; [assumption|].
    now rewrite <- (probeFaults_prefix s s2).
Qed.

Lemma voters_outcome n : forall s res s',
  spawnAll n (voter W) s = (res, s') ->
  (exists lists, res = Normal lists) \/
  (res = Crashed /\
   exists o p, 0 <= o < gSize /\ probeFaults W s o p = true).
Proof.
  induction n as [|n IH]; intros s res s' H.
  { injection H as <- <-. left. eauto. }
  cbn [spawnAll] in H. unfold bind at 1 in H. unfold runtime.go at 1 in H.
  set (s0 := with_panicOnFault false (with_nextTid (S (nextTid s)) s)) in H.
  destruct (keeps_voter W (nextTid s) s0) as [_ Hpre].
  destruct (voter W (nextTid s) s0) as [res1 s1] eqn:Ev.
  cbn [snd] in Hpre.
  apply voter_loop_outcome in Ev as [(l & ->)|(-> & Hex)];
    [| |lia|unfold windowBudget; lia].
  - unfold bind at 1 in H.
    destruct (spawnAll n _ _) as [res2 s2] eqn:E2.
    apply IH in E2 as [(ls & ->)|(-> & o & p & Ho & Hp)].
    + injection H as <- <-. left. eauto.
    + injection H as <- <-. right. split; [reflexivity|].
      exists o, p. split; [assumption|].
      rewrite <- Hp. symmetry. apply probeFaults_prefix. exact Hpre.
  - injection H as <- <-. right. split; [reflexivity|exact Hex].
Qed.

End Outcomes.

(** X11.  [checkGidOffset] ends the process exactly when the load of one
    of the ten goroutines it starts faults at an address that is not nil,
    and this whatever the panic-on-fault mode of its caller; otherwise it
    returns.  It never panics and never hangs. *)
Theorem checkGidOffset_crash_iff W offset s :
  (fst (checkGidOffset W offset s) = Crashed <->
   exists p, p ∈ started s 10 /\ probeFaults W s offset p = true) /\
  ((exists ok, fst (checkGidOffset W offset s) = Normal ok) <->
   forall p, p ∈ started s 10 -> probeFaults W s offset p = false) /\
  fst (checkGidOffset W offset s) <> Panicking /\
  fst (checkGidOffset W offset s) <> Unfinished.
Proof.
  rewrite checkGidOffset_batch. change (Z.to_nat checkCount) with 10%nat.
  pose proof (probeFaults_started W offset s 10) as Hex.
  destruct (existsb _ _) eqn:E.
  - split; [|split; [|split; discriminate]].
    + split; [intros _; now apply Hex|reflexivity].
    + split; [intros [ok H]; discriminate|].
      intros Hall. destruct (proj1 Hex eq_refl) as (p & Hin & Hp).
      rewrite (Hall p Hin) in Hp. discriminate.
  - split; [|split; [|split; discriminate]].
    + split; [discriminate|]. intros H. apply Hex in H. discriminate.
    + split; [|eauto]. intros _ p Hin.
      destruct (probeFaults W s offset p) eqn:Hp; [|reflexivity].
      assert (H : false = true) by (apply Hex; eauto). discriminate.
Qed.

Section Crashes.

Variable W : World.

(** When a batch of probes ends the process, the probe started last is the
    one whose load faulted. *)
Lemma spawn_probes_crash offset n :
  forall s s',
  spawnAll n (checkGidOffset_probe W offset) s = (Crashed, s') ->
  exists p,
    p ∈ started s n /\ probeFaults W s offset p = true /\
    nextTid s' = S p.
Proof.
  unfold started.
  induction n as [|n IH]; intros s s' H; [discriminate|].
  cbn [spawnAll] in H. unfold bind at 1 in H.
  destruct (probe_go_loads W offset s) as (l & Hgo & _). rewrite Hgo in H.
  destruct (probeFaults W s offset (nextTid s)) eqn:Ef.
  - injection H as <-. exists (nextTid s).
    split; [simpl; apply list_elem_of_here|]. split; [assumption|reflexivity].
  - unfold bind at 1 in H.
    destruct (spawnAll n _ _) as [[rest| | |] s2] eqn:E2; try discriminate.
    injection H as <-. apply IH in E2 as (p & Hin & Hp & Hn).
    exists p. split; [simpl; now apply list_elem_of_further|].
    split; assumption.
Qed.

Lemma checkGidOffset_crash offset s s' :
  checkGidOffset W offset s = (Crashed, s') ->
  exists p,
    p ∈ started s (Z.to_nat checkCount) /\ probeFaults W s offset p = true /\
    nextTid s' = S p.
Proof.
  unfold checkGidOffset, bind.
  destruct (spawnAll _ _ _) as [[received| | |] s1] eqn:E; try discriminate.
  intros [= <-]. now apply spawn_probes_crash in E.
Qed.

(** A voter that ends the process does so in one of its rounds of probes,
    at an offset of its scan. *)
Lemma voter_loop_crash t fuel :
  forall offset local s s',
  0 <= offset -> offset mod 8 = 0 ->
  voter_loop fuel W t offset local s = (Crashed, s') ->
  exists o p,
    (0 <= o < gSize /\ o mod 8 = 0) /\
    (nextTid s <= p)%nat /\ nextTid s' = S p /\
    probeFaults W s o p = true.
Proof.
  induction fuel as [|fuel IH]; intros offset local s s' H0 H8 H;
    cbn [voter_loop] in H; [discriminate|].
  destruct (Z.ltb_spec offset gSize) as [Hlt|Hge]; [|discriminate].
  unfold bind at 1 in H.
  destruct (findGidOffset_returns W t offset gSize s) as (r & lg & Hrun & Hr).
  { unfold isInt, minInt, maxInt, gSize in *. lia. }
  { apply gSize_in_range. }
  rewrite Hrun in H.
  destruct (Z.eqb_spec r (-1)) as [->|Hne]; [discriminate|].
  destruct Hr as [Hr|[Hr1 Hr2]]; [contradiction|].
  assert (Hr8 : r mod 8 = 0).
  { replace r with ((r - offset) + offset) by lia.
    rewrite Z.add_mod, Hr2, H8 by lia. reflexivity. }
  unfold bind at 1 in H.
  destruct (checkGidOffset W r (logged lg s)) as [[ok| | |] s2] eqn:Ec;
    try discriminate.
  - apply checkGidOffset_Normal in Ec as [_ (l2 & ->)].
    rewrite wrapInt_id in H
      by (unfold isInt, minInt, maxInt, gidSize, gSize in *; lia).
    apply IH in H as (o & p & Ho & Hp & Hn & Hf);
      [|unfold gidSize; lia
       |unfold gidSize; replace (r + 8) with (r + 1 * 8) by lia;
        now rewrite Z.mod_add by lia].
    exists o, p. split; [assumption|].
    cbn [nextTid logged with_nextTid] in Hp.
    split; [lia|]. split; assumption.
  - injection H as <-. apply checkGidOffset_crash in Ec as (p & Hin & Hf & Hn).
    exists r, p. split; [split; [lia|assumption]|].
    unfold started in Hin. apply elem_of_seq in Hin.
    cbn [nextTid logged] in Hin. split; [lia|]. split; assumption.
Qed.

Lemma voters_crash n :
  forall s s',
  spawnAll n (voter W) s = (Crashed, s') ->
  exists o p,
    (0 <= o < gSize /\ o mod 8 = 0) /\
    (nextTid s < p)%nat /\ nextTid s' = S p /\
    probeFaults W s o p = true.
Proof.
  induction n as [|n IH]; intros s s' H; [discriminate|].
  cbn [spawnAll] in H. unfold bind at 1 in H. unfold runtime.go at 1 in H.
  set (s0 := with_panicOnFault false (with_nextTid (S (nextTid s)) s)) in H.
  destruct (voter W (nextTid s) s0) as [res1 s1] eqn:Ev.
  pose proof Ev as Hout. unfold voter in Hout.
  apply voter_loop_outcome in Hout as [(l & ->)|(-> & _)];
    [| |lia|unfold windowBudget; lia].
  - unfold voter in Ev.
    apply voter_loop_list in Ev as (added & k & lg & _ & -> & _);
      [|lia|reflexivity].
    unfold bind at 1 in H.
    destruct (spawnAll n _ _) as [[rest| | |] s2] eqn:E2; try discriminate.
    injection H as <-. apply IH in E2 as (o & p & Ho & Hp & Hn & Hf).
    exists o, p. split; [assumption|].
    cbn [nextTid logged with_nextTid with_panicOnFault s0] in Hp.
    split; [lia|]. split; assumption.
  - injection H as <-. unfold voter in Ev.
    apply voter_loop_crash in Ev as (o & p & Ho & Hp & Hn & Hf);
      [|lia|reflexivity].
    exists o, p. split; [assumption|].
    cbn [nextTid with_nextTid with_panicOnFault s0] in Hp.
    split; [lia|]. split; assumption.
Qed.

End Crashes.


(** X13.  When some offset is on the list of every voter, the resolver
    succeeds: it returns an offset of the window that is on every list,
    and after package initialisation [FastGetGoIDAvailable] is true,
    whatever is called in between. *)
Theorem getGidOffset_succeeds_if_unanimous order W s lists s1 o :
  spawnAll (Z.to_nat voterCount) (voter W) s = (Normal lists, s1) ->
  unanimous lists o ->
  exists r,
    getGidOffset order W s = (Normal r, s1) /\
    0 <= r < gSize /\ unanimous lists r /\
    forall cs,
      fst (FastGetGoIDAvailable
             (snd (calls W cs (snd (packageInit order W s))))) = Normal true.
Proof.
  intros Hv Ho. exists (pickUnanimous (rangeOf order (countVotes lists))).
  pose proof (getGidOffset_after_voters W order s lists s1 Hv) as Hrun.
  destruct (voters_candidates W s lists s1 Hv) as [Hlen Hall].
  split; [assumption|].
  destruct (resolve_cases order lists Hlen Hall) as [(H1 & _ & H3)|[_ H2]].
  2:{ now destruct (H2 o). }
  split; [tauto|]. split; [assumption|]. intros cs.
  rewrite packageInit_run, Hrun. cbn [snd].
  destruct (keeps_calls W cs
              (with_gidOffset (pickUnanimous (rangeOf order (countVotes lists))) s1))
    as [Hk _].
  unfold FastGetGoIDAvailable, bind, var_gidOffset, ret. cbn [fst].
  rewrite Hk. cbn [gidOffset with_gidOffset].
  destruct (Z.leb_spec 0 (pickUnanimous (rangeOf order (countVotes lists))));
    [reflexivity|lia].
Qed.

(** A use of [getGidOffset_succeeds_if_unanimous]: a runtime that keeps the
    id at two offsets, both on the list of every voter. *)
Lemma getGidOffset_succeeds_if_unanimous_witness :
  let W := exampleWorld [152; 160] 1024 in
  exists r,
    getGidOffset descending W zeroState =
      (Normal r, snd (spawnAll (Z.to_nat voterCount) (voter W) zeroState)) /\
    0 <= r < gSize /\ unanimous (repeat [152; 160] 10) r /\
    forall cs,
      fst (FastGetGoIDAvailable
             (snd (calls W cs (snd (packageInit descending W zeroState)))))
      = Normal true.
Proof.
  cbv zeta.
  apply (getGidOffset_succeeds_if_unanimous descending
           (exampleWorld [152; 160] 1024) zeroState (repeat [152; 160] 10)
           (snd (spawnAll (Z.to_nat voterCount)
                   (voter (exampleWorld [152; 160] 1024)) zeroState)) 152).
  - vm_compute. reflexivity.
  - unfold unanimous. cbn [repeat]. repeat constructor.
Defined.

(** ** The resolver when the voters find nothing *)

Lemma silent_voter W t s :
  slowGid_of W s t = 0 \/ getg W t = 0 -> voter W t s = (Normal [], s).
Proof.
  intros H. unfold voter.
  change (windowBudget 0 gSize) with (S 256). generalize 256%nat. intros fuel.
  cbn [voter_loop]. change (0 <? gSize) with true. cbv iota.
  unfold bind, findGidOffset. rewrite findGidOffset_fuel_run.
  assert (E : negb (slowGid_of W s t =? 0) && negb (getg W t =? 0) = false).
  { destruct H as [-> | ->]; [reflexivity|]. apply andb_false_r. }
  now rewrite E.
Qed.

Lemma silent_voters W n : forall s,
  (forall t, t ∈ started s n -> slowGid_of W s t = 0 \/ getg W t = 0) ->
  spawnAll n (voter W) s = (Normal (repeat [] n), with_nextTid (n + nextTid s) s).
Proof.
  unfold started.
  induction n as [|n IH]; intros s H.
  - simpl. unfold ret. now destruct s.
  - cbn [spawnAll]. unfold bind at 1. unfold runtime.go at 1.
    rewrite silent_voter.
    2:{ change (slowGid_of W (with_panicOnFault false (with_nextTid (S (nextTid s)) s)))
          with (slowGid_of W s).
        apply H. simpl. apply list_elem_of_here. }
    unfold bind at 1. rewrite IH.
    2:{ intros t Ht.
        change (slowGid_of W (with_panicOnFault (panicOnFault s)
                  (with_panicOnFault false (with_nextTid (S (nextTid s)) s))))
          with (slowGid_of W s).
        apply H. simpl. now apply list_elem_of_further. }
    unfold ret. cbn [repeat]. f_equal.
    destruct s. unfold with_nextTid, with_panicOnFault. simpl. f_equal. lia.
Qed.

Lemma countVotes_silent n : countVotes (repeat [] n) = ∅.
Proof.
  unfold countVotes. generalize (∅ : gmap Z Z).
  induction n as [|n IH]; intros m; simpl; [reflexivity|apply IH].
Qed.

(** X14.  The resolver fails closed.  When the slow path gives 0 for each
    of the ten voters (as it does when the stack trace does not have the
    expected form), or their control block reference is nil,
    [getGidOffset] returns -1: the fast path stays off.  No voter makes a
    load or starts a probe: ten goroutines are started and nothing else
    changes. *)
Theorem getGidOffset_fails_closed order W s :
  (forall t, t ∈ started s 10 -> slowGid_of W s t = 0 \/ getg W t = 0) ->
  getGidOffset order W s = (Normal (-1), with_nextTid (10 + nextTid s) s).
Proof.
  intros H.
  rewrite (getGidOffset_after_voters W order s (repeat [] 10)
             (with_nextTid (10 + nextTid s) s)).
  - rewrite countVotes_silent. f_equal. f_equal.
    pose proof (rangeOf_perm order ∅) as Hp. rewrite map_to_list_empty in Hp.
    apply Permutation_nil_r in Hp. now rewrite Hp.
  - change (Z.to_nat voterCount) with 10%nat. now apply silent_voters.
Qed.

(** A use of [getGidOffset_fails_closed]: the package's own test, which
    sets [goroutinePrefix] to ["fake "]. *)
Lemma getGidOffset_fails_closed_witness :
  let s := mkState "fake " 0 false [] 1%nat in
  getGidOffset ascending (exampleWorld [152] 1024) s =
  (Normal (-1), with_nextTid (10 + nextTid s) s).
Proof.
  cbv zeta. apply getGidOffset_fails_closed.
  apply (proj1 (Forall_forall
    (fun t => slowGid_of (exampleWorld [152] 1024)
                (mkState "fake " 0 false [] 1%nat) t = 0 \/
              getg (exampleWorld [152] 1024) t = 0)
    (started (mkState "fake " 0 false [] 1%nat) 10))).
  cbv [started nextTid seq].
  repeat (constructor; [left; vm_compute; reflexivity|]). constructor.
Defined.

(** ** The resolver in a runtime with one layout *)

Lemma idOnlyAtb_spec W s f t : idOnlyAtb W s f t = true -> idOnlyAt W s f t.
Proof.
  unfold idOnlyAtb, idOnlyAt. intros H.
  apply andb_prop in H as [H Hall]. apply andb_prop in H as [Hc Hg].
  split; [now destruct (Z.eqb_spec (slowGid_of W s t) 0)|].
  split; [now destruct (Z.eqb_spec (getg W t) 0)|].
  intros o Ho Hm. rewrite forallb_forall in Hall.
  specialize (Hall o). 
  specialize (Hall (window_progression o Ho Hm)).
  destruct (storedAt W (getg W t) o) as [v|]; [|discriminate].
  exists v. split; [reflexivity|]. apply Bool.eqb_prop in Hall.
  destruct (Z.eqb_spec v (slowGid_of W s t)), (Z.eqb_spec o f);
    try discriminate; tauto.
Qed.

Section Uniform.

Variable W : World.
Variable f : Z.
Hypothesis f_window : 0 <= f < gSize.
Hypothesis f_aligned : f mod 8 = 0.

Lemma idOnlyAt_prefix s s' t :
  goroutinePrefix s' = goroutinePrefix s ->
  idOnlyAt W s f t -> idOnlyAt W s' f t.
Proof. unfold idOnlyAt, slowGid_of. now intros ->. Qed.

Lemma uniform_find_first t s :
  idOnlyAt W s f t ->
  exists l, findGidOffset W t 0 gSize s = (Normal f, logged l s).
Proof.
  intros (Hc & Hg & Hall).
  destruct (findGidOffset_returns W t 0 gSize s) as (r & l & Hrun & _).
  { unfold isInt, minInt, maxInt. lia. }
  { apply gSize_in_range. }
  exists l. rewrite Hrun. f_equal. f_equal.
  pose proof (findGidOffset_match W t 0 gSize s (f / 8)) as Hm.
  rewrite Hrun in Hm. cbn [fst] in Hm.
  assert (Hf : 0 + 8 * (f / 8) = f).
  { pose proof (Z.div_mod f 8 ltac:(lia)). lia. }
  rewrite Hf in Hm.
  assert (H : Normal r = Normal f); [|now injection H].
  apply Hm.
  - unfold isInt, minInt, maxInt. lia.
  - apply gSize_in_range.
  - apply Z.div_pos; lia.
  - unfold firstMatchAt. rewrite Hf.
    split; [assumption|]. split; [assumption|]. split; [lia|]. split.
    + destruct (Hall f f_window f_aligned) as (v & Hv & Hiff).
      rewrite Hv. f_equal. now apply Hiff.
    + intros j Hj.
      assert (Hjf : 8 * j < f).
      { assert (8 * j < 8 * (f / 8)) by lia. lia. }
      destruct (Hall (0 + 8 * j)) as (v & Hv & Hiff).
      * lia.
      * replace (0 + 8 * j) with (0 + j * 8) by lia. now rewrite Z.mod_add by lia.
      * exists v. split; [assumption|]. intros Heq. apply Hiff in Heq. lia.
Qed.

Lemma uniform_find_rest t s :
  idOnlyAt W s f t ->
  exists l, findGidOffset W t (f + 8) gSize s = (Normal (-1), logged l s).
Proof.
  intros (Hc & Hg & Hall).
  destruct (findGidOffset_returns W t (f + 8) gSize s) as (r & l & Hrun & _).
  { unfold isInt, minInt, maxInt, gSize in *. lia. }
  { apply gSize_in_range. }
  exists l. rewrite Hrun. f_equal. f_equal.
  destruct (findGidOffset_found W t (f + 8) gSize s r) as [H|(k & Hk & -> & Hm)].
  - unfold isInt, minInt, maxInt, gSize in *. lia.
  - apply gSize_in_range.
  - now rewrite Hrun.
  - assumption.
  - exfalso. destruct Hm as (_ & _ & Hlt & Hst & _).
    destruct (Hall (f + 8 + 8 * k)) as (v & Hv & Hiff).
    + lia.
    + replace (f + 8 + 8 * k) with (f + (1 + k) * 8) by lia.
      now rewrite Z.mod_add by lia.
    + rewrite Hv in Hst. injection Hst as Hst. apply Hiff in Hst. lia.
Qed.

Lemma uniform_check s :
  (forall p, p ∈ started s (Z.to_nat checkCount) -> idOnlyAt W s f p) ->
  exists l,
    checkGidOffset W f s =
    (Normal true, logged l (with_nextTid (Z.to_nat checkCount + nextTid s) s)).
Proof.
  intros Hall.
  assert (Hp : forall p, p ∈ started s (Z.to_nat checkCount) ->
                 probeFaults W s f p = false /\ probeSucceeds W s f p = true).
  { intros p Hin. destruct (Hall p Hin) as (Hc & Hg & Hst).
    destruct (Hst f f_window f_aligned) as (v & Hv & Hiff).
    unfold probeFaults, probeSucceeds. rewrite Hv.
    unfold storedAt in Hv.
    destruct (Z.eqb_spec (slowGid_of W s p) 0); [contradiction|].
    destruct (Z.eqb_spec (getg W p) 0); [contradiction|]. cbn [negb andb].
    destruct (mem W (addrOf (getg W p) f)); try discriminate.
    split; [reflexivity|]. apply Z.eqb_eq. now apply Hiff. }
  destruct (checkGidOffset_run W f s) as (l & Heq & _).
  - clear Hall. induction (started s (Z.to_nat checkCount)) as [|p ps IH];
      [reflexivity|]. simpl.
    rewrite (proj1 (Hp p ltac:(apply list_elem_of_here))). simpl.
    apply IH. intros p' Hin. apply Hp. now apply list_elem_of_further.
  - exists l. rewrite Heq. f_equal. f_equal.
    clear Hall Heq. induction (started s (Z.to_nat checkCount)) as [|p ps IH];
      [reflexivity|]. simpl.
    rewrite (proj2 (Hp p ltac:(apply list_elem_of_here))). simpl.
    apply IH. intros p' Hin. apply Hp. now apply list_elem_of_further.
Qed.

(** A voter in such a runtime: one match, at [f], one round of ten probes,
    and the list [[f]]. *)
Lemma uniform_voter t s :
  idOnlyAt W s f t ->
  (forall p, p ∈ started s (Z.to_nat checkCount) -> idOnlyAt W s f p) ->
  exists l,
    voter W t s =
    (Normal [f], logged l (with_nextTid (Z.to_nat checkCount + nextTid s) s)).
Proof.
  intros Ht Hp. unfold voter.
  change (windowBudget 0 gSize) with (S (S 255)).
  generalize 255%nat. intros fuel.
  cbn [voter_loop]. change (0 <? gSize) with true. cbv iota.
  unfold bind at 1.
  destruct (uniform_find_first t s Ht) as (l1 & ->).
  destruct (Z.eqb_spec f (-1)) as [Hf|_]; [lia|].
  unfold bind at 1.
  destruct (uniform_check (logged l1 s)) as (l2 & ->).
  { intros p Hin. apply (idOnlyAt_prefix s); [reflexivity|]. now apply Hp. }
  rewrite wrapInt_id by (unfold isInt, minInt, maxInt, gidSize, gSize in *; lia).
  cbn [app]. change (nextTid (logged l1 s)) with (nextTid s).
  set (s2 := logged l2 (with_nextTid _ (logged l1 s))).
  assert (Hs2 : s2 = logged (l2 ++ l1) (with_nextTid (Z.to_nat checkCount + nextTid s) s)).
  { unfold s2, logged, with_nextTid. simpl. now rewrite app_assoc. }
  unfold gidSize.
  destruct (Z.ltb_spec (f + 8) gSize) as [Hlt|Hge].
  - unfold bind at 1.
    destruct (uniform_find_rest t s2) as (l3 & ->).
    { apply (idOnlyAt_prefix s); [reflexivity|assumption]. }
    change (-1 =? -1) with true. cbv iota. unfold ret.
    exists (l3 ++ l2 ++ l1). f_equal. rewrite Hs2.
    unfold logged, with_nextTid. simpl. now rewrite !app_assoc.
  - exists (l2 ++ l1). unfold ret. now rewrite Hs2.
Qed.

Lemma uniform_go_voter s :
  (forall t, (nextTid s <= t < nextTid s + 11)%nat -> idOnlyAt W s f t) ->
  exists l,
    runtime.go (voter W) s =
    (Normal [f], logged l (with_nextTid (11 + nextTid s) s)).
Proof.
  intros H. unfold runtime.go.
  destruct (uniform_voter (nextTid s)
              (with_panicOnFault false (with_nextTid (S (nextTid s)) s)))
    as (l & ->).
  - apply (idOnlyAt_prefix s); [reflexivity|]. apply H. lia.
  - intros p Hin. apply (idOnlyAt_prefix s); [reflexivity|]. apply H.
    unfold started in Hin. apply elem_of_seq in Hin.
    change (Z.to_nat checkCount) with 10%nat in Hin. simpl in Hin. lia.
  - exists l. now destruct s.
Qed.

Lemma uniform_voters n : forall s,
  (forall t, (nextTid s <= t < nextTid s + 11 * n)%nat -> idOnlyAt W s f t) ->
  exists l,
    spawnAll n (voter W) s =
    (Normal (repeat [f] n), logged l (with_nextTid (11 * n + nextTid s) s)).
Proof.
  induction n as [|n IH]; intros s H.
  - exists []. simpl. unfold ret. rewrite logged_nil. now destruct s.
  - cbn [spawnAll]. unfold bind at 1.
    destruct (uniform_go_voter s) as (l1 & ->).
    { intros t Ht. apply H. lia. }
    unfold bind at 1.
    destruct (IH (logged l1 (with_nextTid (11 + nextTid s) s))) as (l2 & ->).
    { intros t Ht. apply (idOnlyAt_prefix s); [reflexivity|]. apply H.
      change (nextTid (logged l1 (with_nextTid (11 + nextTid s) s)))
        with (11 + nextTid s)%nat in Ht. lia. }
    exists (l2 ++ l1). unfold ret. cbn [repeat]. f_equal.
    change (nextTid (logged l1 (with_nextTid (11 + nextTid s) s)))
      with (11 + nextTid s)%nat.
    rewrite logged_logged. f_equal. f_equal. lia.
Qed.

Lemma unanimous_repeat n o : (0 < n)%nat -> unanimous (repeat [f] n) o <-> o = f.
Proof.
  unfold unanimous. intros Hn. split.
  - destruct n as [|n]; [lia|]. simpl. intros H.
    apply Forall_cons in H as [H _]. now apply list_elem_of_singleton in H.
  - intros ->. clear Hn. induction n as [|n IH]; simpl; constructor; [|assumption].
    apply list_elem_of_here.
Qed.

Lemma uniform_resolve order s :
  (forall t, (nextTid s <= t < nextTid s + 110)%nat -> idOnlyAt W s f t) ->
  exists l,
    getGidOffset order W s =
    (Normal f, logged l (with_nextTid (110 + nextTid s) s)).
Proof.
  intros H.
  destruct (uniform_voters (Z.to_nat voterCount) s) as (l & Hv).
  { intros t Ht. apply H. change (Z.to_nat voterCount) with 10%nat in Ht. lia. }
  exists l. rewrite (getGidOffset_after_voters W order s _ _ Hv).
  change (11 * Z.to_nat voterCount + nextTid s)%nat with (110 + nextTid s)%nat.
  f_equal. f_equal.
  destruct (voters_candidates W s _ _ Hv) as [Hlen Hall].
  destruct (resolve_cases order _ Hlen Hall) as [(Hu & _)|[_ Hno]].
  - apply unanimous_repeat in Hu; [assumption|].
    change (Z.to_nat voterCount) with 10%nat. lia.
  - exfalso. apply (Hno f). apply unanimous_repeat; [|reflexivity].
    change (Z.to_nat voterCount) with 10%nat. lia.
Qed.

End Uniform.

(** X15.  In a runtime with one layout the resolver finds the offset.  Let
    [f] be an aligned offset of the window, and let each of the next 110
    goroutines keep its id at [f] of its control block and at no other
    aligned offset of the window.  Then [getGidOffset] returns [f],
    whatever the order of the iteration over the map of votes; it starts
    exactly these 110 goroutines (ten voters with ten probes each) and
    leaves the package variables and the caller's panic-on-fault mode as
    they were. *)
Theorem getGidOffset_finds_the_offset order W f s :
  0 <= f < gSize -> f mod 8 = 0 ->
  (forall t, (nextTid s <= t < nextTid s + 110)%nat -> idOnlyAt W s f t) ->
  exists l,
    getGidOffset order W s =
    (Normal f, logged l (with_nextTid (110 + nextTid s) s)).
Proof. intros Hw Ha H. now apply uniform_resolve. Qed.

(** X16.  Initialisation followed by the public accessor.  Let [f] be an
    aligned offset of the window, and let each of the next 110 goroutines
    keep its id at [f] of its control block and at no other aligned offset
    of the window.  Then package initialisation succeeds and sets
    [gidOffset] to [f], [FastGetGoIDAvailable] is true from then on, and
    for every goroutine whose control block holds its id at [f] the fast
    path of [GetGoID] returns the very id the slow path computes, after
    any run of package operations. *)
Theorem GetGoID_fast_agrees_with_slow order W f s cs t :
  0 <= f < gSize -> f mod 8 = 0 ->
  (forall p, (nextTid s <= p < nextTid s + 110)%nat -> idOnlyAt W s f p) ->
  storedAt W (getg W t) f = Some (slowGid_of W s t) ->
  fst (packageInit order W s) = Normal tt /\
  gidOffset (snd (packageInit order W s)) = f /\
  fst (FastGetGoIDAvailable (snd (calls W cs (snd (packageInit order W s)))))
    = Normal true /\
  fst (GetGoID W t (snd (calls W cs (snd (packageInit order W s)))))
    = Normal (slowGid_of W s t) /\
  fst (GetGoID W t (snd (calls W cs (snd (packageInit order W s)))))
    = fst (slowGid W t (snd (calls W cs (snd (packageInit order W s))))).
Proof.
  intros Hw Ha H Hst.
  destruct (uniform_resolve W f Hw Ha order s H) as (l & Hrun).
  rewrite packageInit_run, Hrun. cbn [fst snd].
  split; [reflexivity|]. split; [reflexivity|].
  set (s1 := with_gidOffset f _).
  destruct (keeps_calls W cs s1) as [Hoff Hpre].
  set (s2 := snd (calls W cs s1)) in *.
  change (gidOffset s1) with f in Hoff.
  change (goroutinePrefix s1) with (goroutinePrefix s) in Hpre.
  assert (Hslow : slowGid_of W s2 t = slowGid_of W s t).
  { unfold slowGid_of. now rewrite Hpre. }
  rewrite slowGid_run. cbn [fst]. rewrite Hslow.
  unfold GetGoID, FastGetGoIDAvailable, fastGid, bind, var_gidOffset, ret.
  rewrite Hoff.
  destruct (Z.leb_spec 0 f) as [_|Hneg]; [|lia].
  split; [reflexivity|]. rewrite gidFromG_run, Hoff.
  unfold storedAt in Hst.
  destruct (mem W (addrOf (getg W t) f)); try discriminate.
  injection Hst as Hst. cbn [fst]. rewrite Hst. now split.
Qed.

Lemma exampleWorld_layout :
  forall t, (1 <= t < 1 + 110)%nat ->
            idOnlyAt (exampleWorld [152] 1024) zeroState 152 t.
Proof.
  intros t Ht. apply idOnlyAtb_spec.
  assert (Hin : t ∈ seq 1 110) by (apply elem_of_seq; lia).
  revert t Hin Ht.
  apply (proj1 (Forall_forall
    (fun t => (1 <= t < 1 + 110)%nat ->
              idOnlyAtb (exampleWorld [152] 1024) zeroState 152 t = true)
    (seq 1 110))).
  cbv [seq].
  repeat (constructor; [intros _; vm_compute; reflexivity|]). constructor.
Qed.

(** A use of [getGidOffset_finds_the_offset]: the runtime that keeps the id
    at offset 152, at package initialisation. *)
Lemma getGidOffset_finds_the_offset_witness :
  exists l,
    getGidOffset descending (exampleWorld [152] 1024) zeroState =
    (Normal 152, logged l (with_nextTid (110 + nextTid zeroState) zeroState)).
Proof.
  apply (getGidOffset_finds_the_offset descending (exampleWorld [152] 1024) 152
           zeroState).
  - unfold gSize. lia.
  - reflexivity.
  - exact exampleWorld_layout.
Defined.

(** A use of [GetGoID_fast_agrees_with_slow]: goroutine 300 after
    initialisation and a call of [checkGidOffset]. *)
Lemma GetGoID_fast_agrees_with_slow_witness :
  let W := exampleWorld [152] 1024 in
  let s1 := snd (calls W [CallCheckGidOffset 152]
                   (snd (packageInit ascending W zeroState))) in
  fst (packageInit ascending W zeroState) = Normal tt /\
  gidOffset (snd (packageInit ascending W zeroState)) = 152 /\
  fst (FastGetGoIDAvailable s1) = Normal true /\
  fst (GetGoID W 300 s1) = Normal (slowGid_of W zeroState 300) /\
  fst (GetGoID W 300 s1) = fst (slowGid W 300 s1).
Proof.
  cbv zeta.
  apply (GetGoID_fast_agrees_with_slow ascending (exampleWorld [152] 1024) 152
           zeroState [CallCheckGidOffset 152] 300).
  - unfold gSize. lia.
  - reflexivity.
  - exact exampleWorld_layout.
  - vm_compute. reflexivity.
Defined.

(** ** Two runs of the resolver *)

Section TwoRuns.

Variable W : World.

(** A voter in whose control block no aligned offset of the window holds
    the id: one scan, no match, no probe, the empty list. *)
Lemma quiet_voter t s :
  (forall o, 0 <= o < gSize -> o mod 8 = 0 ->
     storedAt W (getg W t) o <> Some (slowGid_of W s t)) ->
  exists l, voter W t s = (Normal [], logged l s).
Proof.
  intros Hno. unfold voter.
  change (windowBudget 0 gSize) with (S 256). generalize 256%nat. intros fuel.
  cbn [voter_loop]. change (0 <? gSize) with true. cbv iota.
  unfold bind.
  destruct (findGidOffset_returns W t 0 gSize s) as (r & l & Hrun & _).
  { unfold isInt, minInt, maxInt. lia. }
  { apply gSize_in_range. }
  destruct (findGidOffset_found W t 0 gSize s r) as [->|(k & Hk & -> & Hm)].
  - unfold isInt, minInt, maxInt. lia.
  - apply gSize_in_range.
  - now rewrite Hrun.
  - rewrite Hrun. exists l. reflexivity.
  - exfalso. destruct Hm as (_ & _ & Hlt & Hst & _).
    apply (Hno (0 + 8 * k)); [lia| |assumption].
    replace (0 + 8 * k) with (0 + k * 8) by lia. now rewrite Z.mod_add by lia.
Qed.

Lemma quiet_voters n : forall s,
  (forall t, (nextTid s <= t < nextTid s + n)%nat ->
     forall o, 0 <= o < gSize -> o mod 8 = 0 ->
       storedAt W (getg W t) o <> Some (slowGid_of W s t)) ->
  exists l,
    spawnAll n (voter W) s =
    (Normal (repeat [] n), logged l (with_nextTid (n + nextTid s) s)).
Proof.
  induction n as [|n IH]; intros s H.
  - exists []. simpl. unfold ret. rewrite logged_nil. now destruct s.
  - cbn [spawnAll]. unfold bind at 1. unfold runtime.go at 1.
    destruct (quiet_voter (nextTid s)
                (with_panicOnFault false (with_nextTid (S (nextTid s)) s)))
      as (l1 & ->).
    { apply H. lia. }
    unfold bind at 1.
    destruct (IH (with_panicOnFault (panicOnFault s)
                    (logged l1 (with_panicOnFault false
                                  (with_nextTid (S (nextTid s)) s)))))
      as (l2 & ->).
    { intros t Ht. apply H. cbn [nextTid with_panicOnFault logged with_nextTid] in Ht.
      lia. }
    exists (l2 ++ l1). unfold ret. cbn [repeat]. f_equal.
    destruct s. unfold logged, with_nextTid, with_panicOnFault. simpl.
    rewrite app_assoc. f_equal. lia.
Qed.

Lemma quiet_resolve order s :
  (forall t, (nextTid s <= t < nextTid s + 10)%nat ->
     forall o, 0 <= o < gSize -> o mod 8 = 0 ->
       storedAt W (getg W t) o <> Some (slowGid_of W s t)) ->
  exists l,
    getGidOffset order W s =
    (Normal (-1), logged l (with_nextTid (10 + nextTid s) s)).
Proof.
  intros H.
  destruct (quiet_voters (Z.to_nat voterCount) s) as (l & Hv).
  { intros t Ht. apply H. change (Z.to_nat voterCount) with 10%nat in Ht. lia. }
  exists l. rewrite (getGidOffset_after_voters W order s _ _ Hv).
  rewrite countVotes_silent. f_equal. f_equal.
  pose proof (rangeOf_perm order ∅) as Hp. rewrite map_to_list_empty in Hp.
  apply Permutation_nil_r in Hp. now rewrite Hp.
Qed.

(** The resolver in a runtime with one layout: its result and how many
    goroutines it starts. *)
Lemma layout_resolve order layout s :
  (forall t, (nextTid s <= t < nextTid s + 110)%nat -> idLayout W s layout t) ->
  exists l k,
    getGidOffset order W s =
    (Normal (default (-1) layout), logged l (with_nextTid (k + nextTid s) s)) /\
    (k <= 110)%nat.
Proof.
  destruct layout as [f|]; intros H; cbn [default].
  - assert (Hf : 0 <= f < gSize /\ f mod 8 = 0).
    { apply (H (nextTid s)). lia. }
    destruct (uniform_resolve W f (proj1 Hf) (proj2 Hf) order s) as (l & Hrun).
    { intros t Ht. now apply H. }
    exists l, 110%nat. split; [assumption|lia].
  - destruct (quiet_resolve order s) as (l & Hrun).
    { intros t Ht. apply (H t). lia. }
    exists l, 10%nat. split; [assumption|lia].
Qed.

Lemma idLayout_prefix layout s s' t :
  goroutinePrefix s' = goroutinePrefix s ->
  idLayout W s layout t -> idLayout W s' layout t.
Proof. unfold idLayout, idOnlyAt, slowGid_of. now intros ->. Qed.

Lemma getGidOffset_state order order' s :
  snd (getGidOffset order W s) = snd (getGidOffset order' W s).
Proof.
  unfold getGidOffset, bind.
  now destruct (spawnAll _ _ _) as [[lists| | |] s1].
Qed.

End TwoRuns.


Lemma exampleWorld_layout_two_runs :
  forall t, (1 <= t < 1 + 220)%nat ->
            idLayout (exampleWorld [152] 1024) zeroState (Some 152) t.
Proof.
  intros t Ht. split; [unfold gSize; split; [lia|reflexivity]|].
  apply idOnlyAtb_spec.
  assert (Hin : t ∈ seq 1 220) by (apply elem_of_seq; lia).
  revert t Hin Ht.
  apply (proj1 (Forall_forall
    (fun t => (1 <= t < 1 + 220)%nat ->
              idOnlyAtb (exampleWorld [152] 1024) zeroState 152 t = true)
    (seq 1 220))).
  cbv [seq].
  repeat (constructor; [intros _; vm_compute; reflexivity|]). constructor.
Qed.

